(** * real-ar: voice-driven face registration, coordination layer

    A shallow embedding of the parts of the repository that decide how a
    wake word becomes a registration, and what the registration writes:

    - [Database]        voice_processing/database/database.py
    - [FaceDatabase]    face_recognitionai/detect_and_recognition.py
    - [VoiceActivation] voice_processing/voice_activation.py
    - [VoiceRecognition] voice_processing/voice_recognition.py
    - [System]          main.py (IntegratedFaceVoiceSystem)

    The microphone, the voice-activity classifier, the speech recogniser and
    SQLite are outside the repository; what they answer is an input of the
    model. The display methods and the two stores are taken not to raise,
    but for the INSERT of [store_notes]: [store_voice_notes] has a handler
    for it, so whether it raises is an input as well.
    A [while True] loop that waits for speech is run on a finite list of
    what will be said; when the list ends the loop is still waiting
    ([Starved]), which is the only way the model has of not returning. *)

From Stdlib Require Import ZArith Ascii String List Bool Lia.
From stdpp Require Import base option list gmap strings.

Local Open Scope Z_scope.
Local Open Scope string_scope.
Local Open Scope list_scope.

(* ===================================================================== *)
(** ** Python values and strings *)
(* ===================================================================== *)

Module Py.

(** The Python values that travel between the components: [None], integers,
    strings, tuples (a fetched SQL row) and numeric arrays (a face
    encoding, a bounding box). *)
#[warnings="-register-all"]
Inductive value : Type :=
| VNone
| VInt (z : Z)
| VStr (s : string)
| VTuple (items : list value)
| VArray (cells : list Z).

(** Python truthiness, as used by [if x] and [x or y]. *)
Definition truthy (v : value) : bool :=
  match v with
  | VNone => false
  | VInt z => negb (Z.eqb z 0)
  | VStr s => negb (String.eqb s "")
  | VTuple items => negb (Nat.eqb (length items) 0)
  | VArray cells => negb (Nat.eqb (length cells) 0)
  end.

(** [str.lower()] on the ASCII range. *)
Definition lower_ascii (c : ascii) : ascii :=
  let n := nat_of_ascii c in
  if (Nat.leb 65 n && Nat.leb n 90)%bool then ascii_of_nat (n + 32) else c.

Fixpoint lower (s : string) : string :=
  match s with
  | EmptyString => EmptyString
  | String c rest => String (lower_ascii c) (lower rest)
  end.

Fixpoint startswith (p s : string) : bool :=
  match p, s with
  | EmptyString, _ => true
  | String a p', String b s' => Ascii.eqb a b && startswith p' s'
  | String _ _, EmptyString => false
  end.

(** [needle in hay] on strings. *)
Fixpoint contains (needle hay : string) : bool :=
  startswith needle hay ||
  match hay with
  | EmptyString => false
  | String _ rest => contains needle rest
  end.

(** [s.replace(old, new)] for a non-empty [old]: the occurrences of [old]
    are found from the left and do not overlap. [skip] counts the
    characters of an occurrence still to be passed over. *)
Fixpoint replace_from (old new : string) (skip : nat) (s : string) : string :=
  match s with
  | EmptyString => EmptyString
  | String c rest =>
    match skip with
    | S skip' => replace_from old new skip' rest
    | O =>
      if startswith old s
      then new +:+ replace_from old new (String.length old - 1) rest
      else String c (replace_from old new O rest)
    end
  end.

Definition replace (old new s : string) : string := replace_from old new O s.

(** The ASCII characters [str.strip()] removes. *)
Definition is_space (c : ascii) : bool :=
  let n := nat_of_ascii c in
  (Nat.leb 9 n && Nat.leb n 13) || (Nat.leb 28 n && Nat.leb n 32).

Fixpoint lstrip (s : string) : string :=
  match s with
  | EmptyString => EmptyString
  | String c rest => if is_space c then lstrip rest else s
  end.

Fixpoint rstrip (s : string) : string :=
  match s with
  | EmptyString => EmptyString
  | String c rest =>
    match rstrip rest with
    | EmptyString => if is_space c then EmptyString else String c EmptyString
    | String _ _ as kept => String c kept
    end
  end.

Definition strip (s : string) : string := rstrip (lstrip s).

(** [bool(s)] for a string. *)
Definition nonempty (s : string) : bool := negb (String.eqb s "").

(** Case-insensitive substring test: both sides folded to lower case. *)
Definition contains_ci (needle hay : string) : bool :=
  contains (lower needle) (lower hay).

End Py.

(* ===================================================================== *)
(** ** database.py: the relational store *)
(* ===================================================================== *)

Module Database.
Import Py.

(** One row of [face_notes]. *)
Record row : Type := Row {
  row_id : Z;
  row_name : string;
  row_notes : string;
  row_category : string
}.

(** The table as SQLite holds it: rows in rowid order (the order a scan
    without ORDER BY visits them), and the AUTOINCREMENT counter, the
    largest rowid ever handed out. *)
Record t : Type := Db {
  rows : list row;
  seq : Z
}.

(** [create_table] on a fresh file. *)
Definition create_table : t := {| rows := []; seq := 0 |}.

(** [store_notes]: INSERT; the new row gets the next rowid. *)
Definition store_notes (name notes category : string) (db : t) : t :=
  let i := seq db + 1 in
  {| rows := rows db ++ [Row i name notes category]; seq := i |}.

(** [cursor.fetchone()]: the first row of the result set, or [None]. *)
Definition fetchone (result_set : list value) : value :=
  match result_set with
  | [] => VNone
  | r :: _ => r
  end.

(** [SELECT id FROM face_notes WHERE name = ?]: each hit is a row of one
    column, which the driver hands over as a one-element tuple. *)
Definition select_id (name : string) (db : t) : list value :=
  map (fun r => VTuple [VInt (row_id r)])
      (List.filter (fun r => String.eqb (row_name r) name) (rows db)).

(** [get_id]: [return result if result else None]. *)
Definition get_id (name : string) (db : t) : value :=
  let result := fetchone (select_id name db) in
  if truthy result then result else VNone.

(** UPDATE ... WHERE id = ?: every row with that id is rewritten in place. *)
Definition update_row (id : Z) (name notes category : string) (r : row) : row :=
  if Z.eqb (row_id r) id then Row (row_id r) name notes category else r.

(** [edit]: run the UPDATE, commit, [return True]. *)
Definition edit (id : Z) (name notes category : string) (db : t) : t * bool :=
  ({| rows := map (update_row id name notes category) (rows db);
      seq := seq db |}, true).

(** Rowids ascend along the scan and none exceeds the counter. *)
Fixpoint ascending (bound : Z) (l : list row) : Prop :=
  match l with
  | [] => True
  | r :: rest => bound < row_id r /\ ascending (row_id r) rest
  end.

Definition wf (db : t) : Prop :=
  0 <= seq db /\ ascending 0 (rows db)
  /\ Forall (fun r => row_id r <= seq db) (rows db).

(** [SELECT name, notes, category FROM face_notes WHERE id = ?], for an
    integer id. *)
Definition select_notes (id : Z) (db : t) : list value :=
  map (fun r => VTuple [VStr (row_name r); VStr (row_notes r);
                        VStr (row_category r)])
      (List.filter (fun r => Z.eqb (row_id r) id) (rows db)).

(** [get_notes]: [return result if result else None]. *)
Definition get_notes (id : Z) (db : t) : value :=
  let result := fetchone (select_notes id db) in
  if truthy result then result else VNone.

(** The two statements the code ever runs against a table once it exists,
    and a run of them from the empty table. *)
Inductive statement : Type :=
| Insert (name notes category : string)
| Update (id : Z) (name notes category : string).

Definition execute (st : statement) (db : t) : t :=
  match st with
  | Insert name notes category => store_notes name notes category db
  | Update id name notes category => fst (edit id name notes category db)
  end.

Definition execute_all (sts : list statement) (db : t) : t :=
  fold_left (fun acc st => execute st acc) sts db.

Definition is_insert (st : statement) : bool :=
  match st with
  | Insert _ _ _ => true
  | Update _ _ _ _ => false
  end.

(** The rowids [1, 2, ..., n]. *)
Definition first_ids (n : nat) : list Z := map Z.of_nat (List.seq 1 n).

End Database.

(* ===================================================================== *)
(** ** detect_and_recognition.py: the embedding store *)
(* ===================================================================== *)

Module FaceDatabase.
Import Py.

(** [encodings] and [names] are the two parallel lists; [pickled] is what
    the last [save] wrote to [face_db.pkl]. *)
Record t : Type := FaceDb {
  encodings : list value;
  names : list value;
  pickled : list value * list value
}.

Definition empty : t := {| encodings := []; names := []; pickled := ([], []) |}.

Definition save (db : t) : t :=
  {| encodings := encodings db; names := names db;
     pickled := (encodings db, names db) |}.

(** [add_face]: append to both lists, then save. *)
Definition add_face (encoding id : value) (db : t) : t :=
  save {| encodings := encodings db ++ [encoding];
          names := names db ++ [id];
          pickled := pickled db |}.

End FaceDatabase.

(* ===================================================================== *)
(** ** voice_activation.py: voice-activity buffer and wake-word detector *)
(* ===================================================================== *)

Module VoiceActivation.
Import Py.

(** An audio frame is a Python [bytes] object; a segment is the list of
    frames the buffer held. *)
Definition frame : Type := string.
Definition segment : Type := list frame.

(** What lies outside the repository: the webrtcvad classifier (mode 3),
    the speech recogniser ([None] when the request raises, otherwise the
    transcripts of the results in order) and whether the input device can
    be opened. *)
Record env : Type := Env {
  vad_is_speech : frame -> bool;
  recognize : string -> option (list string);
  device_opens : bool
}.

(** The scratch directory: the files by path, and whether a write
    succeeds. *)
Record disk : Type := Disk {
  files : gmap string string;
  writable : bool
}.

(** The fields of a [VoiceActivation] object that the detector reads or
    writes. [stream] is [true] for an open stream, [false] for [None].
    ([last_detection_time] is written and never read.) *)
Record t : Type := VA {
  wake_word : string;
  chunk_size : nat;
  stream : bool;
  speech_detected : bool;
  audio_buffer : list frame
}.

Definition frame_duration : Z := 30.
Definition sample_rate : Z := 16000.

(** [__init__(wake_word="register")]. *)
Definition init (configured : string) : t :=
  {| wake_word := lower configured;
     chunk_size := Z.to_nat (sample_rate * frame_duration / 1000);
     stream := false;
     speech_detected := false;
     audio_buffer := [] |}.

Definition set_buffer (b : list frame) (st : t) : t :=
  {| wake_word := wake_word st; chunk_size := chunk_size st;
     stream := stream st; speech_detected := speech_detected st;
     audio_buffer := b |}.

Definition set_speech_detected (b : bool) (st : t) : t :=
  {| wake_word := wake_word st; chunk_size := chunk_size st;
     stream := stream st; speech_detected := b;
     audio_buffer := audio_buffer st |}.

Definition set_stream (b : bool) (st : t) : t :=
  {| wake_word := wake_word st; chunk_size := chunk_size st;
     stream := b; speech_detected := speech_detected st;
     audio_buffer := audio_buffer st |}.

(** [len(data) == self.chunk_size * 2]. *)
Definition well_sized (st : t) (data : frame) : bool :=
  Nat.eqb (String.length data) (chunk_size st * 2).

(** [process_audio_chunk]: the result is [None] or the copy of the buffer.
    On the emitting path the method returns before [self.audio_buffer = []]
    is reached, so the buffer is left as it is. *)
Definition process_audio_chunk (e : env) (data : frame) (st : t)
  : option segment * t :=
  if negb (well_sized st data) then (None, st)
  else if vad_is_speech e data then
    (None, set_buffer (audio_buffer st ++ [data]) (set_speech_detected true st))
  else if speech_detected st then
    let st1 := set_speech_detected false st in
    if Nat.ltb 0 (length (audio_buffer st1)) then (Some (audio_buffer st1), st1)
    else (None, set_buffer [] st1)
  else (None, st).

(** [if audio_chunks:] *)
Definition chunks_truthy (chunks : option segment) : bool :=
  match chunks with
  | Some (_ :: _) => true
  | _ => false
  end.

Definition scratch_name : string := "recorded_audio.wav".

Definition join_path (dir name : string) : string := dir +:+ "/" +:+ name.

(** [save_audio(frames, filename="recorded_audio.wav")]: the path, or
    [None] when there is nothing to save or the write raises. *)
Definition save_audio (frames : list frame) (filename : string) (d : disk)
  : option string * disk :=
  match frames with
  | [] => (None, d)
  | _ :: _ =>
    let filepath := join_path "recordings" filename in
    if writable d then
      (Some filepath,
       {| files := <[filepath := String.concat "" frames]> (files d);
          writable := writable d |})
    else (None, d)
  end.

(** [transcribe_audio]: the first result's transcript in lower case; the
    empty string when there is no result or anything raises. *)
Definition transcribe_audio (e : env) (audio_file : string) (d : disk) : string :=
  match files d !! audio_file with
  | None => ""
  | Some content =>
    match recognize e content with
    | Some (transcript :: _) => lower transcript
    | Some [] => ""
    | None => ""
    end
  end.

(** [reset_state]. *)
Definition reset_state (st : t) : t :=
  set_stream false (set_buffer [] (set_speech_detected false st)).

(** [initialize_audio_stream]: [None] when opening fails. *)
Definition initialize_audio_stream (e : env) (st : t) : option t :=
  if device_opens e then Some (set_stream true st) else None.

(** The body of [if audio_chunks:] up to the match test: save, transcribe,
    and compare. [true] is the path that returns [True]. *)
Definition segment_triggers (e : env) (st : t) (chunks : segment) (d : disk)
  : bool * disk :=
  let '(audio_file, d1) := save_audio chunks scratch_name d in
  match audio_file with
  | Some path =>
    let text := transcribe_audio e path d1 in
    if nonempty text then (contains (wake_word st) (lower text), d1)
    else (false, d1)
  | None => (false, d1)
  end.

(** After the loop: [if self.speech_detected and self.audio_buffer:], one
    more save-and-transcribe on the buffer still being filled. *)
Definition final_flush (e : env) (st : t) (d : disk) : bool * t * disk :=
  if speech_detected st && Nat.ltb 0 (length (audio_buffer st)) then
    let '(hit, d1) := segment_triggers e st (audio_buffer st) d in
    if hit then (true, reset_state st, d1) else (false, st, d1)
  else (false, st, d).

(** The [while] loop of [listen_for_wake_word] and what follows it.
    [reads] are the outcomes of the [stream.read] calls that fall inside
    the listen window, in order; [None] is a read that raised. *)
Fixpoint listen_loop (e : env) (reads : list (option frame)) (st : t) (d : disk)
  : bool * t * disk :=
  match reads with
  | [] => final_flush e st d
  | None :: rest => listen_loop e rest st d
  | Some data :: rest =>
    let '(audio_chunks, st1) := process_audio_chunk e data st in
    if chunks_truthy audio_chunks then
      let '(hit, d1) := segment_triggers e st1 (default [] audio_chunks) d in
      if hit then (true, reset_state st1, d1)
      else listen_loop e rest (set_buffer [] st1) d1
    else listen_loop e rest st1 d
  end.

(** [listen_for_wake_word]: open the stream if there is none, clear the
    buffer, then loop over the window. *)
Definition listen_for_wake_word (e : env) (reads : list (option frame))
    (st : t) (d : disk) : bool * t * disk :=
  match (if stream st then Some st else initialize_audio_stream e st) with
  | None => (false, st, d)
  | Some st0 =>
    listen_loop e reads (set_speech_detected false (set_buffer [] st0)) d
  end.

(** The voice-activity buffer as the detector drives it, with the
    save-and-transcribe step left out: each frame goes through
    [process_audio_chunk]; a segment that comes out is collected and the
    buffer is cleared (the [self.audio_buffer = []] that closes the
    [if audio_chunks:] block). *)
Fixpoint feed (e : env) (reads : list (option frame)) (st : t)
  : list segment * t :=
  match reads with
  | [] => ([], st)
  | None :: rest => feed e rest st
  | Some data :: rest =>
    let '(audio_chunks, st1) := process_audio_chunk e data st in
    if chunks_truthy audio_chunks then
      let '(segs, st2) := feed e rest (set_buffer [] st1) in
      (default [] audio_chunks :: segs, st2)
    else feed e rest st1
  end.

(** The buffer still being filled when the window ends, if any. *)
Definition in_progress (st : t) : list segment :=
  if speech_detected st && Nat.ltb 0 (length (audio_buffer st))
  then [audio_buffer st] else [].

(** Every segment the detector hands to the recogniser when nothing
    matches: the emitted ones, then the final flush. *)
Definition segments_heard (e : env) (reads : list (option frame)) (st : t)
  : list segment :=
  let '(segs, st') :=
    feed e reads (set_speech_detected false (set_buffer [] st)) in
  segs ++ in_progress st'.

(** A segment's transcript: what saving it and transcribing the file
    gives; an empty text is no transcript. *)
Definition transcript (e : env) (d : disk) (seg : segment) : option string :=
  let '(audio_file, d1) := save_audio seg scratch_name d in
  match audio_file with
  | Some path =>
    let text := transcribe_audio e path d1 in
    if nonempty text then Some text else None
  | None => None
  end.

(** *** The segments of a frame sequence, by the glossary: maximal
    contiguous runs of speech frames. *)

(** The frames that count: read without error and of the expected size. *)
Definition classified (st : t) (reads : list (option frame)) : list frame :=
  List.filter (well_sized st) (omap id reads).

(** [runs speech l] is the run of speech frames [l] starts with, and the
    maximal runs after it. *)
Fixpoint runs (speech : frame -> bool) (l : list frame)
  : list frame * list segment :=
  match l with
  | [] => ([], [])
  | f :: rest =>
    let '(lead, later) := runs speech rest in
    if speech f then (f :: lead, later)
    else ([], match lead with [] => later | _ :: _ => lead :: later end)
  end.

Definition maximal_runs (speech : frame -> bool) (l : list frame)
  : list segment :=
  let '(lead, later) := runs speech l in
  match lead with [] => later | _ :: _ => lead :: later end.

(** Whether the last frame of the sequence is speech: the last run is then
    not yet closed by a silence frame. *)
Definition ends_in_speech (speech : frame -> bool) (l : list frame) : bool :=
  match last l with
  | Some f => speech f
  | None => false
  end.

(** Where the detector keeps its scratch file. *)
Definition scratch_path : string := join_path "recordings" scratch_name.

(** Whether a segment's transcript has the trigger phrase [phrase] in it,
    whatever the case of either. *)
Definition triggers (e : env) (d : disk) (phrase : string) (seg : segment)
  : bool :=
  match transcript e d seg with
  | Some t => contains_ci phrase t
  | None => false
  end.

(** "Exactly one segment is emitted per maximal run": as many segments
    leave the buffer as the input has maximal runs of speech frames. *)
Definition one_segment_per_run (e : env) (reads : list (option frame)) (st : t)
  : Prop :=
  length (fst (feed e reads (set_speech_detected false (set_buffer [] st))))
  = length (maximal_runs (vad_is_speech e) (classified st reads)).

(** "The scratch file of a segment is deleted after the segment is
    successfully transcribed": when the detector returns from a window in
    which a segment it heard got a transcript, no scratch file is left. *)
Definition scratch_deleted_after_success (e : env)
    (reads : list (option frame)) (st : t) (d : disk) : Prop :=
  forall seg text,
    In seg (segments_heard e reads st) ->
    transcript e d seg = Some text ->
    files (snd (listen_for_wake_word e reads st d))
      !! join_path "recordings" scratch_name = None.

(** Inside the detector loop the flag says whether the buffer holds
    anything. *)
Definition in_step (st : t) : Prop :=
  speech_detected st = Nat.ltb 0 (length (audio_buffer st)).

(** The audio host as PyAudio shows it: the names of its devices by index,
    and the index of the default input device ([None] when the host has
    none and the query raises). *)
Record host : Type := Host {
  device_names : list string;
  default_input : option nat
}.

(** [for i in range(count): if p(name(i)): return i], from index [i] on. *)
Fixpoint first_index (p : string -> bool) (i : nat) (names : list string)
  : option nat :=
  match names with
  | [] => None
  | name :: rest => if p name then Some i else first_index p (S i) rest
  end.

Definition target_name : string := "Lynette's AirPods Pro - Find My".

(** [find_airpods_device]: the index returned; [None] when the query for
    the default device raises, which nothing in the method catches. *)
Definition find_airpods_device (h : host) : option nat :=
  match first_index (contains target_name) 0 (device_names h) with
  | Some i => Some i
  | None => default_input h
  end.

End VoiceActivation.

(* ===================================================================== *)
(** ** The objects of [IntegratedFaceVoiceSystem] and the effects on them *)
(* ===================================================================== *)

Module Machine.
Import Py.

(** A face as [recognize_faces] returns it: a dict with the keys
    [box], [name], [encoding], [notes], [category]. *)
Abbreviation face := (gmap string value).

(** One capture by the dialog's microphone: what [record_audio] returns
    ([None], or the bytes), the time stamp that names the file, and what
    the recogniser makes of the file ([None] when the request raises,
    otherwise the transcripts of its results, in order). *)
Record capture : Type := Capture {
  recording : option string;
  stamp : string;
  recognition : option (list string)
}.

(** What happens at one call of [get_voice_input]: a capture, or an
    exception that leaves the call ([record_audio] builds its [PyAudio]
    object outside its [try]). *)
Inductive attempt : Type :=
| Attempt (c : capture)
| Crash.

(** What one call of [get_voice_input] gives its caller: the return value
    ([None], or the cleaned transcript, which may be empty), or the
    exception. *)
Inductive heard : Type :=
| Heard (result : option string)
| Fault.

(** Calls that leave the coordination code, in the order they happen. *)
Inductive event : Type :=
| Acquire
| Release
| UpdateStatus (face_detection voice_active wake_word_listening : option bool)
| UpdateVoiceFeedback (text : string) (is_final : bool)
| ShowNotification (text : string)
| ShowInputConfirmation (input_type text : string)
| StartRegistration (box : value)
| NextRegistrationStep (input_text : string)
| UpdateDisplay
| Render
| ListenForWakeWord
| GetVoiceInput
| StoreNotes (name notes category : string)
| AddFace (encoding id : value)
| StartThread (name notes category : string)
| Sleep.

(** The fields of [ARDisplay] that the coordination code reads or that
    decide what its methods do. *)
Record display : Type := Display {
  wake_word_listening : bool;
  voice_active : bool;
  face_detection_active : bool;
  confirmation_mode : bool;
  current_step : Z
}.

(** Everything the two threads share or act on: the coordination flags
    and the unknown-face list (the fields the lock protects), the two
    stores, the display, the detector and the scratch directory, then
    whether SQLite refuses an INSERT so that [store_notes] raises (the file
    locked by another connection, a full disk), what the dialog's
    microphone will capture and the calls made so far. *)
Record world : Type := World {
  listening_for_wake_word : bool;
  registration_mode : bool;
  start_registration_requested : bool;
  unknown_faces : list face;
  sql_db : Database.t;
  face_db : FaceDatabase.t;
  ar_display : display;
  voice_activation : VoiceActivation.t;
  scratch : VoiceActivation.disk;
  insert_raises : bool;
  mic : list attempt;
  trace : list event
}.

Definition set_listening_for_wake_word (x : bool) (w : world) : world :=
  {| listening_for_wake_word := x; registration_mode := registration_mode w;
     start_registration_requested := start_registration_requested w;
     unknown_faces := unknown_faces w; sql_db := sql_db w;
     face_db := face_db w; ar_display := ar_display w;
     voice_activation := voice_activation w; scratch := scratch w;
     insert_raises := insert_raises w; mic := mic w; trace := trace w |}.

Definition set_registration_mode (x : bool) (w : world) : world :=
  {| listening_for_wake_word := listening_for_wake_word w;
     registration_mode := x;
     start_registration_requested := start_registration_requested w;
     unknown_faces := unknown_faces w; sql_db := sql_db w;
     face_db := face_db w; ar_display := ar_display w;
     voice_activation := voice_activation w; scratch := scratch w;
     insert_raises := insert_raises w; mic := mic w; trace := trace w |}.

Definition set_start_registration_requested (x : bool) (w : world) : world :=
  {| listening_for_wake_word := listening_for_wake_word w;
     registration_mode := registration_mode w;
     start_registration_requested := x; unknown_faces := unknown_faces w;
     sql_db := sql_db w; face_db := face_db w; ar_display := ar_display w;
     voice_activation := voice_activation w; scratch := scratch w;
     insert_raises := insert_raises w; mic := mic w; trace := trace w |}.

Definition set_unknown_faces (x : list face) (w : world) : world :=
  {| listening_for_wake_word := listening_for_wake_word w;
     registration_mode := registration_mode w;
     start_registration_requested := start_registration_requested w;
     unknown_faces := x; sql_db := sql_db w; face_db := face_db w;
     ar_display := ar_display w; voice_activation := voice_activation w;
     scratch := scratch w;
     insert_raises := insert_raises w; mic := mic w; trace := trace w |}.

Definition set_sql_db (x : Database.t) (w : world) : world :=
  {| listening_for_wake_word := listening_for_wake_word w;
     registration_mode := registration_mode w;
     start_registration_requested := start_registration_requested w;
     unknown_faces := unknown_faces w; sql_db := x; face_db := face_db w;
     ar_display := ar_display w; voice_activation := voice_activation w;
     scratch := scratch w;
     insert_raises := insert_raises w; mic := mic w; trace := trace w |}.

Definition set_face_db (x : FaceDatabase.t) (w : world) : world :=
  {| listening_for_wake_word := listening_for_wake_word w;
     registration_mode := registration_mode w;
     start_registration_requested := start_registration_requested w;
     unknown_faces := unknown_faces w; sql_db := sql_db w; face_db := x;
     ar_display := ar_display w; voice_activation := voice_activation w;
     scratch := scratch w;
     insert_raises := insert_raises w; mic := mic w; trace := trace w |}.

Definition set_ar_display (x : display) (w : world) : world :=
  {| listening_for_wake_word := listening_for_wake_word w;
     registration_mode := registration_mode w;
     start_registration_requested := start_registration_requested w;
     unknown_faces := unknown_faces w; sql_db := sql_db w;
     face_db := face_db w; ar_display := x;
     voice_activation := voice_activation w; scratch := scratch w;
     insert_raises := insert_raises w; mic := mic w; trace := trace w |}.

Definition set_voice_activation (x : VoiceActivation.t) (w : world) : world :=
  {| listening_for_wake_word := listening_for_wake_word w;
     registration_mode := registration_mode w;
     start_registration_requested := start_registration_requested w;
     unknown_faces := unknown_faces w; sql_db := sql_db w;
     face_db := face_db w; ar_display := ar_display w; voice_activation := x;
     scratch := scratch w;
     insert_raises := insert_raises w; mic := mic w; trace := trace w |}.

Definition set_scratch (x : VoiceActivation.disk) (w : world) : world :=
  {| listening_for_wake_word := listening_for_wake_word w;
     registration_mode := registration_mode w;
     start_registration_requested := start_registration_requested w;
     unknown_faces := unknown_faces w; sql_db := sql_db w;
     face_db := face_db w; ar_display := ar_display w;
     voice_activation := voice_activation w; scratch := x;
     insert_raises := insert_raises w; mic := mic w;
     trace := trace w |}.

Definition set_mic (x : list attempt) (w : world) : world :=
  {| listening_for_wake_word := listening_for_wake_word w;
     registration_mode := registration_mode w;
     start_registration_requested := start_registration_requested w;
     unknown_faces := unknown_faces w; sql_db := sql_db w;
     face_db := face_db w; ar_display := ar_display w;
     voice_activation := voice_activation w; scratch := scratch w;
     insert_raises := insert_raises w; mic := x;
     trace := trace w |}.

Definition set_trace (x : list event) (w : world) : world :=
  {| listening_for_wake_word := listening_for_wake_word w;
     registration_mode := registration_mode w;
     start_registration_requested := start_registration_requested w;
     unknown_faces := unknown_faces w; sql_db := sql_db w;
     face_db := face_db w; ar_display := ar_display w;
     voice_activation := voice_activation w; scratch := scratch w;
     insert_raises := insert_raises w; mic := mic w; trace := x |}.


(** The two calls that write to a store. *)
Definition is_store_call (ev : event) : bool :=
  match ev with
  | StoreNotes _ _ _ | AddFace _ _ => true
  | _ => false
  end.

Definition emit (ev : event) (w : world) : world :=
  set_trace (trace w ++ [ev]) w.

(** The events a piece of code added to the trace. *)
Definition events_since (before after : world) : list event :=
  drop (length (trace before)) (trace after).

(** [w'] comes after [w] and no store was written in between: both stores
    are the same and none of the calls added to the trace is a store
    call. *)
Definition quiet (w w' : world) : Prop :=
  sql_db w' = sql_db w /\ face_db w' = face_db w
  /\ VoiceActivation.writable (scratch w') = VoiceActivation.writable (scratch w)
  /\ insert_raises w' = insert_raises w
  /\ exists evs, trace w' = trace w ++ evs
                 /\ Forall (fun ev => is_store_call ev = false) evs.

(** The same, and nothing was taken from the microphone either. *)
Definition silent (w w' : world) : Prop := quiet w w' /\ mic w' = mic w.

(** [with self.lock: body]. *)
Definition locked (body : world -> world) (w : world) : world :=
  emit Release (body (emit Acquire w)).

(** A method either returns, or an exception leaves it, or it is still
    waiting for the microphone when the recorded input ends. *)
Inductive result (A : Type) : Type :=
| Ok (a : A) (w : world)
| Raised (w : world)
| Starved (w : world).
Arguments Ok {A} a w.
Arguments Raised {A} w.
Arguments Starved {A} w.

Definition M (A : Type) : Type := world -> result A.

Definition ret {A} (a : A) : M A := fun w => Ok a w.

Definition bind {A B} (c : M A) (k : A -> M B) : M B :=
  fun w =>
    match c w with
    | Ok a w1 => k a w1
    | Raised w1 => Raised w1
    | Starved w1 => Starved w1
    end.

(** A method of the model that cannot fail, as a step of [M]. *)
Definition lift (f : world -> world) : M unit := fun w => Ok tt (f w).

Definition world_of {A} (r : result A) : world :=
  match r with
  | Ok _ w => w
  | Raised w => w
  | Starved w => w
  end.

Notation "'do' x <- c ; k" := (bind c (fun x => k))
  (at level 10, x name, c at level 100, k at level 200).
Notation "'exec' c ; k" := (bind c (fun _ => k))
  (at level 10, c at level 100, k at level 200).
Notation "'call' f ; k" := (bind (lift f) (fun _ => k))
  (at level 10, f at level 100, k at level 200).

(** [try: body / except Exception: handler / finally: cleanup], for a
    handler and a cleanup that cannot fail. While the body waits, nothing
    after it runs. *)
Definition try_except_finally (body : M unit) (handler cleanup : world -> world)
  : M unit :=
  fun w =>
    match body w with
    | Ok _ w1 => Ok tt (cleanup w1)
    | Raised w1 => Ok tt (cleanup (handler w1))
    | Starved w1 => Starved w1
    end.

(** *** ARDisplay methods *)

Definition update_status (face_detection voice_active' wake : option bool)
    (w : world) : world :=
  let d := ar_display w in
  emit (UpdateStatus face_detection voice_active' wake)
    (set_ar_display
       {| wake_word_listening := default (wake_word_listening d) wake;
          voice_active := default (voice_active d) voice_active';
          face_detection_active := default (face_detection_active d) face_detection;
          confirmation_mode := confirmation_mode d;
          current_step := current_step d |} w).

Definition render (w : world) : world := emit Render w.

Definition show_notification (text : string) (w : world) : world :=
  emit (ShowNotification text) w.

Definition set_confirmation_mode (b : bool) (w : world) : world :=
  let d := ar_display w in
  set_ar_display
    {| wake_word_listening := wake_word_listening d;
       voice_active := voice_active d;
       face_detection_active := face_detection_active d;
       confirmation_mode := b;
       current_step := current_step d |} w.

Definition set_current_step (n : Z) (w : world) : world :=
  let d := ar_display w in
  set_ar_display
    {| wake_word_listening := wake_word_listening d;
       voice_active := voice_active d;
       face_detection_active := face_detection_active d;
       confirmation_mode := confirmation_mode d;
       current_step := n |} w.

Definition show_input_confirmation (input_type text : string) (w : world)
  : world :=
  render (emit (ShowInputConfirmation input_type text)
            (set_confirmation_mode true w)).

Definition update_voice_feedback (text : string) (is_final : bool) (w : world)
  : world :=
  render (emit (UpdateVoiceFeedback text is_final) w).

Definition start_registration (box : value) (w : world) : world :=
  render (update_status (Some true) (Some true) None
            (emit (StartRegistration box) (set_current_step 1 w))).

Definition next_registration_step (input_text : string) (w : world) : world :=
  let w1 := emit (NextRegistrationStep input_text) w in
  let step := current_step (ar_display w1) + 1 in
  render
    (if Z.ltb 3 step then
       update_status None (Some false) None
         (set_current_step 0
            (show_notification "Face registered successfully!" w1))
     else set_current_step step w1).

End Machine.

(* ===================================================================== *)
(** ** voice_recognition.py: the registration dialog *)
(* ===================================================================== *)

Module VoiceRecognition.
Import Py Machine.

(** [save_audio(recording, filename)], for a recording that is not [None]:
    the full path, or [None] when the recording is empty or the write
    raises. *)
Definition save_audio (recording filename : string) (d : VoiceActivation.disk)
  : option string * VoiceActivation.disk :=
  let full_path := VoiceActivation.join_path "recordings" filename in
  if negb (nonempty recording) then (None, d)
  else if VoiceActivation.writable d then
    (Some full_path,
     {| VoiceActivation.files := <[full_path := recording]> (VoiceActivation.files d);
        VoiceActivation.writable := VoiceActivation.writable d |})
  else (None, d).

(** [transcribe_audio(audio_path)]: [None] for a missing or empty file and
    for a request that raises; the first result's transcript; the empty
    string when there is no result. *)
Definition transcribe_audio (recognition : option (list string))
    (audio_path : string) (d : VoiceActivation.disk) : option string :=
  match VoiceActivation.files d !! audio_path with
  | None => None
  | Some content =>
    if negb (nonempty content) then None
    else
      match recognition with
      | Some (transcript :: _) => Some transcript
      | Some [] => Some ""
      | None => None
      end
  end.

(** [os.remove(path)]. *)
Definition remove (path : string) (d : VoiceActivation.disk)
  : VoiceActivation.disk :=
  {| VoiceActivation.files := delete path (VoiceActivation.files d);
     VoiceActivation.writable := VoiceActivation.writable d |}.

(** The end of [get_voice_input]: a result with the wake word in it is
    lower-cased, the wake word taken out and the rest stripped. *)
Definition clean (result : string) : string :=
  let wake_word := "register" in
  if contains wake_word (lower result)
  then strip (replace wake_word "" (lower result))
  else result.

(** [get_voice_input] from the recording on: save under a name with the
    time stamp, transcribe; a file whose transcription failed is kept, the
    others are removed. *)
Definition voice_input (c : capture) (d : VoiceActivation.disk)
  : option string * VoiceActivation.disk :=
  match recording c with
  | None => (None, d)
  | Some bytes =>
    if negb (nonempty bytes) then (None, d)
    else
      let audio_filename := "input_" +:+ stamp c +:+ ".wav" in
      let '(audio_full_path, d1) := save_audio bytes audio_filename d in
      match audio_full_path with
      | Some path =>
        match transcribe_audio (recognition c) path d1 with
        | None => (None, d1)
        | Some result => (Some (clean result), remove path d1)
        end
      | None => (None, d1)
      end
  end.

(** [get_voice_input]: the next attempt of [mic]. *)
Definition get_voice_input : M (option string) :=
  fun w =>
    match mic w with
    | [] => Starved w
    | Attempt c :: rest =>
      let '(result, d) := voice_input c (scratch w) in
      Ok result (set_scratch d (emit GetVoiceInput (set_mic rest w)))
    | Crash :: rest => Raised (emit GetVoiceInput (set_mic rest w))
    end.

(** What the calls of [get_voice_input] will give, in order, from the
    world [w] on. *)
Definition hear (w : world) (a : attempt) : heard :=
  match a with
  | Attempt c => Heard (fst (voice_input c (scratch w)))
  | Crash => Fault
  end.

Definition said (w : world) : list heard := map (hear w) (mic w).

(** [get_yes_no_response]: [while True] until a response has "yes" or
    "no" in it; "yes" is tested first. Every turn of the loop takes one
    element of [mic], so [fuel] above its length is never used up. *)
Fixpoint get_yes_no_response_loop (fuel : nat) : M bool :=
  match fuel with
  | O => fun w => Starved w
  | S fuel' =>
    do response <- get_voice_input;
    match response with
    | Some r =>
      let r := lower r in
      if contains "yes" r then ret true
      else if contains "no" r then ret false
      else get_yes_no_response_loop fuel'
    | None => get_yes_no_response_loop fuel'
    end
  end.

Definition get_yes_no_response : M bool :=
  fun w => get_yes_no_response_loop (S (length (mic w))) w.

(** The three prompts are the same loop; they differ in the field name
    given to the callback and in the [return] expression ([finish]). *)
Fixpoint prompt_loop (input_type : string) (finish : string -> string)
    (show_input_callback : string -> string -> world -> world) (fuel : nat)
  : M string :=
  match fuel with
  | O => fun w => Starved w
  | S fuel' =>
    do value <- get_voice_input;
    match value with
    | Some v =>
      if nonempty v then
        call show_input_callback input_type v;
        do confirmed <- get_yes_no_response;
        if confirmed then ret (finish v)
        else prompt_loop input_type finish show_input_callback fuel'
      else prompt_loop input_type finish show_input_callback fuel'
    | None => prompt_loop input_type finish show_input_callback fuel'
    end
  end.

(** [prompt_for_name]: [return name]. *)
Definition prompt_for_name (show_input_callback : string -> string -> world -> world)
  : M string :=
  fun w => prompt_loop "name" (fun name => name) show_input_callback
             (S (length (mic w))) w.

(** [prompt_for_notes]: [return notes]. *)
Definition prompt_for_notes (show_input_callback : string -> string -> world -> world)
  : M string :=
  fun w => prompt_loop "notes" (fun notes => notes) show_input_callback
             (S (length (mic w))) w.

(** [prompt_for_category]: [return category if category else "Other"]. *)
Definition prompt_for_category (show_input_callback : string -> string -> world -> world)
  : M string :=
  fun w => prompt_loop "category"
             (fun category => if nonempty category then category else "Other")
             show_input_callback (S (length (mic w))) w.

(** [get_airpods_device_index]: the first device with "pulse" in its
    lower-cased name, else the default input device; [None] is the
    method's own [return None], when the query for the default raises. *)
Definition get_airpods_device_index (h : VoiceActivation.host) : option nat :=
  match VoiceActivation.first_index (fun name => contains "pulse" (lower name))
          0 (VoiceActivation.device_names h) with
  | Some i => Some i
  | None => VoiceActivation.default_input h
  end.

(** One turn of the chunk loop of [record_audio]: the time-out test, then
    what [stream.read] does. *)
Inductive chunk_read : Type :=
| TimedOut
| Chunk (data : string)
| ReadIOError
| ReadError.

(** [int(self.fs / self.chunk_size * duration)] for [fs = 16000],
    [chunk_size = 1024] and [duration = 3]: 46.875 cut to 46. *)
Definition num_chunks : nat := Z.to_nat (16000 * 3 / 1024).

(** [for i in range(0, num_chunks)], from turn [i] with [n] turns to go:
    the frames collected, or [None] when an exception other than [IOError]
    leaves the loop. *)
Fixpoint record_chunks (reads : nat -> chunk_read) (i n : nat)
    (frames : list string) : option (list string) :=
  match n with
  | O => Some frames
  | S n' =>
    match reads i with
    | TimedOut => Some frames
    | Chunk data => record_chunks reads (S i) n' (frames ++ [data])
    | ReadIOError => Some frames
    | ReadError => None
    end
  end.

(** [record_audio()]: [None] without a device, when the stream cannot be
    opened, when the loop is left by an exception, and when no frame was
    read; otherwise the frames joined. *)
Definition record_audio (device_index : option nat) (opens : bool)
    (reads : nat -> chunk_read) : option string :=
  match device_index with
  | None => None
  | Some _ =>
    if opens then
      match record_chunks reads 0 num_chunks [] with
      | Some ((_ :: _) as frames) => Some (String.concat "" frames)
      | Some [] => None
      | None => None
      end
    else None
  end.

(** [store_voice_notes]: [self.database] is the system's [sql_db]. The
    call of [store_notes] sits in a [try]: when the INSERT raises, the
    handler prints the exception and the method returns like after an
    INSERT that went through, with the table as it was. *)
Definition store_voice_notes (name notes category : string) (w : world) : world :=
  emit (StoreNotes name notes category)
    (if insert_raises w then w
     else set_sql_db (Database.store_notes name notes category (sql_db w)) w).

(** *** The dialog in the words of its description

    A field is captured, shown, and answered. The answer is looked for in
    one more response: "yes" in it commits the value, "no" in it starts the
    capture of the field again, anything else asks again. A capture that
    fails or is empty is tried again. The relations read a list of
    [get_voice_input] results from the left and say what is left of it. *)

Definition yes_in (response : string) : bool := contains "yes" (lower response).
Definition no_in (response : string) : bool := contains "no" (lower response).

Inductive answered : list heard -> bool -> list heard -> Prop :=
| answered_yes r rest :
    yes_in r = true -> answered (Heard (Some r) :: rest) true rest
| answered_no r rest :
    yes_in r = false -> no_in r = true ->
    answered (Heard (Some r) :: rest) false rest
| answered_unclear r rest b out :
    yes_in r = false -> no_in r = false -> answered rest b out ->
    answered (Heard (Some r) :: rest) b out
| answered_unheard rest b out :
    answered rest b out -> answered (Heard None :: rest) b out.

Inductive field_confirmed : list heard -> string -> list heard -> Prop :=
| confirmed_yes v rest out :
    v <> "" -> answered rest true out ->
    field_confirmed (Heard (Some v) :: rest) v out
| confirmed_after_no v rest mid v' out :
    v <> "" -> answered rest false mid -> field_confirmed mid v' out ->
    field_confirmed (Heard (Some v) :: rest) v' out
| confirmed_after_empty rest v out :
    field_confirmed rest v out ->
    field_confirmed (Heard (Some "") :: rest) v out
| confirmed_after_failure rest v out :
    field_confirmed rest v out ->
    field_confirmed (Heard None :: rest) v out.

(** A response the prompts do not take for a value: a capture that failed,
    or an empty transcript. *)
Definition unheard (h : heard) : Prop := h = Heard None \/ h = Heard (Some "").

(** Name, notes and category each get their "yes", one after the other. *)
Definition three_confirmed (said : list heard) (name notes category : string)
  : Prop :=
  exists after_name after_notes after_category,
    field_confirmed said name after_name
    /\ field_confirmed after_name notes after_notes
    /\ field_confirmed after_notes category after_category.

(** What it is for a prompt to follow [field_confirmed]: it returns the
    value that gets its "yes", leaving the rest of the input, and does not
    return when no value does; either way it writes to no store. *)
Definition prompt_spec (prompt : M string) : Prop :=
  forall w,
    match prompt w with
    | Ok v w' => field_confirmed (said w) v (said w') /\ quiet w w'
    | Raised w' => (forall v out, ~ field_confirmed (said w) v out) /\ quiet w w'
    | Starved w' => (forall v out, ~ field_confirmed (said w) v out) /\ quiet w w'
    end.

End VoiceRecognition.

(* ===================================================================== *)
(** ** main.py: IntegratedFaceVoiceSystem *)
(* ===================================================================== *)

Module System.
Import Py Machine VoiceRecognition.

(** [__init__], over the stores found on disk. SQLite takes the INSERTs
    unless a scenario says otherwise ([set_insert_raises]). *)
Definition init (db : Database.t) (faces : FaceDatabase.t)
    (d : VoiceActivation.disk) : world :=
  {| listening_for_wake_word := true;
     registration_mode := false;
     start_registration_requested := false;
     unknown_faces := [];
     sql_db := db;
     face_db := faces;
     ar_display := {| wake_word_listening := false; voice_active := false;
                      face_detection_active := false;
                      confirmation_mode := false; current_step := 0 |};
     voice_activation := VoiceActivation.init "register";
     scratch := d;
     insert_raises := false;
     mic := [];
     trace := [] |}.

(** [f["name"] == "Unknown"]. *)
Definition is_unknown (f : face) : bool :=
  match f !! "name" with
  | Some (VStr s) => String.eqb s "Unknown"
  | _ => false
  end.

Definition has_key (k : string) (f : face) : bool :=
  match f !! k with
  | Some _ => true
  | None => false
  end.

(** [bool(d)] for a dict. *)
Definition dict_truthy (f : face) : bool := negb (Nat.eqb (size f) 0).

Definition list_truthy {A} (l : list A) : bool := Nat.ltb 0 (length l).

(** [x or d] on strings. *)
Definition str_or (x d : string) : string := if nonempty x then x else d.

(** [self.registration_mode = False; self.listening_for_wake_word = True]. *)
Definition reset_flags (w : world) : world :=
  set_listening_for_wake_word true (set_registration_mode false w).

Definition add_face (encoding id : value) (w : world) : world :=
  emit (AddFace encoding id)
    (set_face_db (FaceDatabase.add_face encoding id (face_db w)) w).

Definition get_id (name : string) : M value :=
  fun w => Ok (Database.get_id name (sql_db w)) w.

(** The [try] block of [register_new_face]. *)
Definition registration_body (face_data : face) : M unit :=
  call update_status None (Some true) (Some false);
  call update_voice_feedback "Listening for name..." false;
  do name <- prompt_for_name show_input_confirmation;
  if negb (nonempty name) then
    call update_voice_feedback "No name detected" true;
    call show_notification "Registration failed: No name provided";
    call locked reset_flags;
    lift (update_status None (Some false) None)
  else
    call update_voice_feedback name true;
    call next_registration_step name;
    call update_voice_feedback "Listening for notes..." false;
    do notes0 <- prompt_for_notes show_input_confirmation;
    let notes := str_or notes0 "" in
    call update_voice_feedback (str_or notes "No notes provided") true;
    call next_registration_step notes;
    call update_voice_feedback "Listening for category..." false;
    do category0 <- prompt_for_category show_input_confirmation;
    let category := str_or category0 "Other" in
    call set_confirmation_mode false;
    call render;
    call update_voice_feedback category true;
    call next_registration_step category;
    call store_voice_notes name notes category;
    do id <- get_id name;
    call add_face (default VNone (face_data !! "encoding")) id;
    call emit (StartThread name notes category);
    lift (show_notification ("Face registered as " +:+ name)).

(** The face data that passes the check at the top of
    [register_new_face]. *)
Definition face_ok (face_data : face) : Prop :=
  dict_truthy face_data = true /\ has_key "box" face_data = true
  /\ has_key "encoding" face_data = true.

(** [register_new_face]. *)
Definition register_new_face (face_data : face) : M unit :=
  if negb (dict_truthy face_data) || negb (has_key "box" face_data)
     || negb (has_key "encoding" face_data)
  then ret tt
  else
    try_except_finally (registration_body face_data)
      (show_notification "Registration Error")
      (fun w => update_status None (Some false) None (locked reset_flags w)).


(** One turn of the [while self.running] loop of [voice_listener_thread].
    [reads] is what the microphone delivers if the detector is called. *)
Definition voice_listener_iteration (e : VoiceActivation.env)
    (reads : list (option VoiceActivation.frame)) (w : world) : world :=
  let current_display_listening_state := wake_word_listening (ar_display w) in
  let w := emit Acquire w in
  let should_listen :=
    listening_for_wake_word w && negb (registration_mode w)
    && list_truthy (unknown_faces w) in
  let w :=
    if negb (Bool.eqb should_listen current_display_listening_state)
    then update_status None None (Some should_listen) w else w in
  let w :=
    if listening_for_wake_word w && negb (registration_mode w)
       && list_truthy (unknown_faces w)
    then
      let w := emit ListenForWakeWord w in
      let '(detected, va, d) :=
        VoiceActivation.listen_for_wake_word e reads
          (voice_activation w) (scratch w) in
      let w := set_scratch d (set_voice_activation va w) in
      if detected then
        if negb (registration_mode w) && list_truthy (unknown_faces w) then
          set_start_registration_requested true
            (set_registration_mode true
               (set_listening_for_wake_word false w))
        else w
      else w
    else w in
  let w := emit Release w in
  emit Sleep w.

(** *** [run]: one turn of the main loop, in the pieces between which the
    listener thread can take the lock. *)

(** [with self.lock: self.unknown_faces = [...]], then the display update. *)
Definition refresh_unknown_faces (recognition_results : list face) (w : world)
  : world :=
  emit UpdateDisplay
    (locked (set_unknown_faces (List.filter is_unknown recognition_results)) w).

(** The block under the lock that looks at [start_registration_requested]:
    the face to register (if any) and the world after it. *)
Definition check_registration_request (w : world) : option face * world :=
  let w := emit Acquire w in
  let '(face_to_register, w) :=
    if start_registration_requested w && list_truthy (unknown_faces w) then
      (head (unknown_faces w), set_start_registration_requested false w)
    else if start_registration_requested w then
      (None,
       set_listening_for_wake_word true
         (set_registration_mode false
            (set_start_registration_requested false w)))
    else (None, w) in
  (face_to_register, emit Release w).

(** [if face_to_register:] up to the return of [register_new_face]. *)
Definition start_and_register (face_to_register : face) : M unit :=
  match face_to_register !! "box" with
  | None => fun w => Raised w
  | Some box =>
    call start_registration box;
    call update_status None (Some true) (Some false);
    register_new_face face_to_register
  end.

(** [with self.lock: self.listening_for_wake_word = True]. *)
Definition resume_listening (w : world) : world :=
  locked (set_listening_for_wake_word true) w.

(** [self.ar_display.render(); time.sleep(0.01)]. *)
Definition end_of_turn (w : world) : world := emit Sleep (render w).

(** From the request check to the end of the turn. *)
Definition serve_registration_request : M unit :=
  fun w =>
    let '(face_to_register, w1) := check_registration_request w in
    match face_to_register with
    | Some f =>
      if dict_truthy f then
        (exec start_and_register f;
         call resume_listening;
         lift end_of_turn) w1
      else lift end_of_turn w1
    | None => lift end_of_turn w1
    end.

(** One turn of the main loop: [recognition] is [None] when the camera has
    no frame, [quit] is what [process_events] returns. The result is
    whether the loop goes on. *)
Definition main_loop_turn (recognition : option (list face)) (quit : bool)
  : M bool :=
  match recognition with
  | None => call emit Sleep; ret true
  | Some recognition_results =>
    call refresh_unknown_faces recognition_results;
    if quit then ret false
    else exec serve_registration_request; ret true
  end.

(** *** The two threads together *)

(** Where the main thread stands between two of its lock blocks. *)
Inductive main_pc : Type :=
| LoopTop
| FacesRefreshed
| RequestChecked (face_to_register : option face)
| Registered.

Record system : Type := Sys {
  now : world;
  pc : main_pc
}.

(** A step of one thread. The listener's turn runs under the lock from its
    first flag read to its last flag write, so it is one step. A step of
    the main thread is one of the pieces above: it runs from one lock block
    up to the next. *)
Inductive action : Type :=
| ListenerTurn (e : VoiceActivation.env)
               (reads : list (option VoiceActivation.frame))
| MainRefresh (recognition_results : list face)
| MainCheck
| MainRegister
| MainResume
| MainEndTurn.

Definition step (a : action) (s : system) : option system :=
  match a, pc s with
  | ListenerTurn e reads, p =>
    Some {| now := voice_listener_iteration e reads (now s); pc := p |}
  | MainRefresh results, LoopTop =>
    Some {| now := refresh_unknown_faces results (now s); pc := FacesRefreshed |}
  | MainCheck, FacesRefreshed =>
    let '(f, w) := check_registration_request (now s) in
    Some {| now := w; pc := RequestChecked f |}
  | MainRegister, RequestChecked (Some f) =>
    if dict_truthy f then
      match start_and_register f (now s) with
      | Ok _ w => Some {| now := w; pc := Registered |}
      | Raised _ | Starved _ => None
      end
    else None
  | MainResume, Registered =>
    Some {| now := end_of_turn (resume_listening (now s)); pc := LoopTop |}
  | MainEndTurn, RequestChecked f =>
    if from_option dict_truthy false f then None
    else Some {| now := end_of_turn (now s); pc := LoopTop |}
  | _, _ => None
  end.

Fixpoint steps (schedule : list action) (s : system) : option system :=
  match schedule with
  | [] => Some s
  | a :: rest =>
    match step a s with
    | Some s' => steps rest s'
    | None => None
    end
  end.

(** A state that some interleaving of the two threads reaches from
    [__init__]. What the microphone will say to the dialog ([said]) is
    fixed with the schedule. *)
Definition reachable (s : system) : Prop :=
  exists db faces d said schedule,
    steps schedule {| now := set_mic said (init db faces d); pc := LoopTop |}
    = Some s.

(** *** The lock and the calls made while it is held *)

(** The calls a thread makes while it holds the lock, from its own events
    in order; [held] is whether it holds the lock at the start. *)
Fixpoint calls_under_lock (held : bool) (events : list event) : list event :=
  match events with
  | [] => []
  | Acquire :: rest => calls_under_lock true rest
  | Release :: rest => calls_under_lock false rest
  | ev :: rest =>
    if held then ev :: calls_under_lock held rest
    else calls_under_lock held rest
  end.

(** Calls that leave the process or wait: audio capture and transcription,
    rendering, sleeping. *)
Definition blocking (ev : event) : bool :=
  match ev with
  | ListenForWakeWord | GetVoiceInput | Render | Sleep => true
  | _ => false
  end.

(** Whether the thread holds the lock after the events. *)
Fixpoint holds (held : bool) (events : list event) : bool :=
  match events with
  | [] => held
  | Acquire :: rest => holds true rest
  | Release :: rest => holds false rest
  | _ :: rest => holds held rest
  end.

(** [w'] comes after [w] by the events of a thread that did not hold the
    lock at [w]: it made no call while it held the lock, and does not hold
    it at [w']. *)
Definition outside_lock (w w' : world) : Prop :=
  exists evs, trace w' = trace w ++ evs
              /\ calls_under_lock false evs = []
              /\ holds false evs = false.

(** A method that, however it ends, has kept its calls outside the lock,
    and that is found still waiting only when the microphone input has run
    out. *)
Definition tidy {A} (c : M A) : Prop :=
  forall w,
    match c w with
    | Ok _ w' => outside_lock w w'
    | Raised w' => outside_lock w w'
    | Starved w' => outside_lock w w' /\ mic w' = []
    end.

(** *** [sync_thread] *)

(** One entry of the server's answer, a JSON object: a key may be missing
    ([None]); the values are taken to have the types the server sends, an
    integer id and three strings. *)
Record entry : Type := Entry {
  entry_id : option Z;
  entry_name : option string;
  entry_notes : option string;
  entry_category : option string
}.

(** What [requests.get] brings: an exception, or a status code and a body.
    The body is [None] when [response.json()] raises, otherwise the list
    of entries. *)
Inductive response : Type :=
| NoResponse
| Response (status_code : Z) (json : option (list entry)).

(** [for entry in data: success = sql_db.edit(entry["id"], entry["name"],
    entry["notes"], entry["category"])]: the table afterwards, and whether
    a [KeyError] left the loop. *)
Fixpoint apply_entries (data : list entry) (db : Database.t)
  : Database.t * bool :=
  match data with
  | [] => (db, false)
  | en :: rest =>
    match entry_id en, entry_name en, entry_notes en, entry_category en with
    | Some id, Some name, Some notes, Some category =>
      let '(db1, success) := Database.edit id name notes category db in
      apply_entries rest db1
    | _, _, _, _ => (db, true)
    end
  end.

(** One turn of [while self.running] in [sync_thread]: the table
    afterwards and the seconds slept, 60 at the end of the [try] block and
    10 in the handler. *)
Definition sync_turn (r : response) (db : Database.t) : Database.t * Z :=
  match r with
  | NoResponse => (db, 10)
  | Response status_code json =>
    if Z.eqb status_code 200 then
      match json with
      | None => (db, 10)
      | Some data =>
        if list_truthy data && Nat.ltb 0 (length data) then
          let '(db1, raised) := apply_entries data db in
          (db1, if raised then 10 else 60)
        else (db, 60)
      end
    else (db, 60)
  end.

(** The UPDATE an entry stands for, when it has all four keys. *)
Definition as_update (en : entry) : option Database.statement :=
  match entry_id en, entry_name en, entry_notes en, entry_category en with
  | Some id, Some name, Some notes, Some category =>
    Some (Database.Update id name notes category)
  | _, _, _, _ => None
  end.

End System.

(* ===================================================================== *)
(** ** Concrete inputs *)
(* ===================================================================== *)

Module Scenario.
Import Py Machine.

(** Frames of 960 bytes, the size [__init__] fixes (480 samples of 16
    bits); the stand-in classifier calls a frame speech when it starts
    with the byte [s]. *)
Definition speech_frame : VoiceActivation.frame :=
  String.concat "" (repeat "s" 960%nat).

Definition silence_frame : VoiceActivation.frame :=
  String.concat "" (repeat "." 960%nat).

(** A recogniser that hears the same sentence in every file. *)
Definition hears (sentence : string) : VoiceActivation.env :=
  {| VoiceActivation.vad_is_speech := startswith "s";
     VoiceActivation.recognize := fun _ => Some [sentence];
     VoiceActivation.device_opens := true |}.

Definition empty_disk : VoiceActivation.disk :=
  {| VoiceActivation.files := ∅; VoiceActivation.writable := true |}.

Definition detector : VoiceActivation.t := VoiceActivation.init "register".

(** An unknown face as [recognize_faces] builds it. *)
Definition stranger : face :=
  <["box" := VArray [10; 20; 110; 140]]>
    (<["name" := VStr "Unknown"]>
       (<["encoding" := VArray [3; 1; 4; 1; 5]]>
          (<["notes" := VStr ""]> (<["category" := VStr ""]> ∅)))).

Definition one_row : Database.t :=
  Database.store_notes "Alice" "tall" "friend" Database.create_table.

(** The system right after [__init__], on empty stores. *)
Definition fresh : world :=
  System.init Database.create_table FaceDatabase.empty empty_disk.

(** A wake word was taken up and registration is under way. *)
Definition requested : world :=
  set_start_registration_requested true
    (set_registration_mode true (set_listening_for_wake_word false fresh)).

(** An unknown face in view, nothing else going on. *)
Definition stranger_in_view : world := set_unknown_faces [stranger] fresh.

(** The user says "register" twice: once to start the registration, and
    once more right after the dialog has ended, when the listener is back
    at the microphone before the main loop has taken its next step. *)
Definition second_wake_word : list System.action :=
  [System.MainRefresh [stranger];
   System.ListenerTurn (hears "Please REGISTER me")
     [Some speech_frame; Some silence_frame];
   System.MainCheck;
   System.MainRegister;
   System.ListenerTurn (hears "register")
     [Some speech_frame; Some silence_frame];
   System.MainResume].

(** A capture in which the recogniser hears [text]. *)
Definition spoken (text : string) : attempt :=
  Attempt {| recording := Some "pcm"; stamp := "1743400000";
             recognition := Some [text] |}.

(** A capture for which the recogniser has no result: the transcript is
    empty. *)
Definition nothing_understood : attempt :=
  Attempt {| recording := Some "pcm"; stamp := "1743400000";
             recognition := Some [] |}.

(** A whole dialog: each field said once and confirmed at once. *)
Definition alice_tall_friend : list attempt :=
  [spoken "Alice"; spoken "yes";
   spoken "tall"; spoken "Yes please";
   spoken "friend"; spoken "yes"].

(** Nothing understood for the field, then "yes", then two more
    responses. *)
Definition silence_then_yes : list attempt :=
  [nothing_understood; spoken "yes"; spoken "tall"; spoken "yes"].

(** A scratch directory that cannot be written. *)
Definition read_only_disk : VoiceActivation.disk :=
  {| VoiceActivation.files := ∅; VoiceActivation.writable := false |}.

(** The recogniser cannot be reached: every request raises. *)
Definition offline : VoiceActivation.env :=
  {| VoiceActivation.vad_is_speech := startswith "s";
     VoiceActivation.recognize := fun _ => None;
     VoiceActivation.device_opens := true |}.

(** A capture on which the recogniser raises. *)
Definition not_transcribed : attempt :=
  Attempt {| recording := Some "pcm"; stamp := "1743400000";
             recognition := None |}.

(** A face that was recognised. *)
Definition alice : face :=
  <["box" := VArray [200; 30; 300; 150]]>
    (<["name" := VStr "Alice"]>
       (<["encoding" := VArray [2; 7; 1; 8; 2]]>
          (<["notes" := VStr "tall"]> (<["category" := VStr "friend"]> ∅)))).

(** A face with a box and no encoding. *)
Definition boxed_only : face :=
  <["box" := VArray [10; 20; 110; 140]]> (<["name" := VStr "Unknown"]> ∅).

(** Two entries from the server, and one that lacks its notes. *)
Definition rename_alice : System.entry :=
  {| System.entry_id := Some 1; System.entry_name := Some "Alice B";
     System.entry_notes := Some "tall"; System.entry_category := Some "friend" |}.

Definition without_notes : System.entry :=
  {| System.entry_id := Some 1; System.entry_name := Some "Alicia";
     System.entry_notes := None; System.entry_category := Some "family" |}.




End Scenario.

(* ===================================================================== *)
(** * Properties *)
(* ===================================================================== *)

(** ** Strings *)

Section PyFacts.
Import Py.

Lemma nonempty_true s : nonempty s = true <-> s <> "".
Proof.
  unfold nonempty. destruct (String.eqb_spec s ""); simpl; split; congruence.
Qed.

Lemma nonempty_false s : nonempty s = false <-> s = "".
Proof.
  unfold nonempty. destruct (String.eqb_spec s ""); simpl; split; congruence.
Qed.

Lemma existsb_pointwise {A} (f g : A -> bool) (l : list A) :
  (forall x, f x = g x) -> existsb f l = existsb g l.
Proof.
  intros H. induction l as [|x l IH]; simpl; [reflexivity|].
  now rewrite H, IH.
Qed.

End PyFacts.

(** ** The relational store *)

Section DatabaseFacts.
Import Py Database.


Lemma ascending_app b l r :
  ascending b l -> Forall (fun x => row_id x < row_id r) l -> b < row_id r ->
  ascending b (l ++ [r]).
Proof.
  revert b. induction l as [|x l IH]; simpl; intros b Hasc Hall Hb.
  - tauto.
  - destruct Hasc as [Hx Hrest]. inversion Hall; subst.
    split; [assumption|]. apply IH; assumption.
Qed.

(** The states the code can bring the table into are well formed. *)
Lemma wf_create_table : wf create_table.
Proof. repeat split; simpl; [lia | constructor]. Qed.

Lemma wf_store_notes name notes category db :
  wf db -> wf (store_notes name notes category db).
Proof.
  intros (Hpos & Hasc & Hseq). split; [simpl; lia|]. split; simpl.
  - apply ascending_app; simpl; [assumption| |lia].
    eapply Forall_impl; [exact Hseq|]. simpl. intros; lia.
  - apply Forall_app. split.
    + eapply Forall_impl; [exact Hseq|]. simpl. intros; lia.
    + constructor; [simpl; lia | constructor].
Qed.

Lemma update_row_id id name notes category r :
  row_id (update_row id name notes category r) = row_id r.
Proof. unfold update_row. destruct (row_id r =? id)%Z; reflexivity. Qed.

Lemma ascending_update id name notes category b l :
  ascending b l -> ascending b (map (update_row id name notes category) l).
Proof.
  revert b. induction l as [|x l IH]; simpl; intros b; [tauto|].
  rewrite update_row_id. intros [? ?]. split; [assumption|]. now apply IH.
Qed.

Lemma wf_edit id name notes category db :
  wf db -> wf (fst (edit id name notes category db)).
Proof.
  intros (Hpos & Hasc & Hseq). split; [assumption|]. split; simpl.
  - now apply ascending_update.
  - apply Forall_map. eapply Forall_impl; [exact Hseq|].
    intros r Hr. simpl. now rewrite update_row_id.
Qed.


Lemma no_hit p (l : list row) :
  List.filter p l = [] -> forall r, In r l -> p r = false.
Proof.
  induction l as [|x l IH]; simpl; intros Hf r Hin; [tauto|].
  destruct (p x) eqn:Hp; [discriminate|].
  destruct Hin as [->|Hin]; [assumption|]. now apply IH.
Qed.

Lemma get_id_cases name db :
  (List.filter (fun r => String.eqb (row_name r) name) (rows db) = []
   /\ get_id name db = VNone)
  \/ (exists r rest,
        List.filter (fun r => String.eqb (row_name r) name) (rows db) = r :: rest
        /\ get_id name db = VTuple [VInt (row_id r)]).
Proof.
  unfold get_id, select_id.
  destruct (List.filter _ (rows db)) as [|r rest] eqn:E; simpl.
  - left. split; reflexivity.
  - right. exists r, rest. split; reflexivity.
Qed.



End DatabaseFacts.

(** ** The voice-activity buffer *)

Section VoiceActivityFacts.
Import Py VoiceActivation.

Variable e : env.

Let speech := vad_is_speech e.

Lemma runs_speech_prefix cur l :
  Forall (fun f => speech f = true) cur ->
  runs speech (cur ++ l) = (cur ++ fst (runs speech l), snd (runs speech l)).
Proof.
  induction cur as [|f cur IH]; simpl; intros Hall.
  - now destruct (runs speech l).
  - inversion Hall as [|? ? Hf Hcur]; subst.
    rewrite (IH Hcur). simpl. now rewrite Hf.
Qed.

Lemma maximal_runs_all_speech cur :
  Forall (fun f => speech f = true) cur ->
  maximal_runs speech cur = match cur with [] => [] | _ :: _ => [cur] end.
Proof.
  intros Hall. unfold maximal_runs.
  rewrite <- (app_nil_r cur) at 1. rewrite (runs_speech_prefix _ _ Hall).
  simpl. rewrite app_nil_r. reflexivity.
Qed.

Lemma maximal_runs_speech_then_silence cur f rest :
  Forall (fun f => speech f = true) cur -> speech f = false ->
  maximal_runs speech (cur ++ f :: rest)
  = match cur with [] => [] | _ :: _ => [cur] end ++ maximal_runs speech rest.
Proof.
  intros Hall Hf. unfold maximal_runs.
  rewrite (runs_speech_prefix _ _ Hall). simpl.
  destruct (runs speech rest) as [lead later]. rewrite Hf. simpl.
  rewrite app_nil_r. destruct cur; reflexivity.
Qed.

Lemma ends_in_speech_all_speech cur :
  Forall (fun f => speech f = true) cur ->
  ends_in_speech speech cur = Nat.ltb 0 (length cur).
Proof.
  unfold ends_in_speech. intros Hall.
  destruct cur as [|f cur] using rev_ind; [reflexivity|].
  rewrite last_snoc, length_app. simpl.
  apply Forall_app in Hall as [_ Hf]. inversion Hf; subst.
  destruct (length cur); simpl; assumption.
Qed.

Lemma ends_in_speech_after_silence cur f rest :
  speech f = false ->
  ends_in_speech speech (cur ++ f :: rest) = ends_in_speech speech rest.
Proof.
  intros Hf. unfold ends_in_speech.
  destruct rest as [|g rest] using rev_ind.
  - rewrite last_snoc. simpl. assumption.
  - replace (cur ++ f :: rest ++ [g]) with ((cur ++ f :: rest) ++ [g])
      by (rewrite <- app_assoc; reflexivity).
    now rewrite !last_snoc.
Qed.

(** [process_audio_chunk] never touches the configuration. *)
Lemma process_keeps_config data st :
  chunk_size (snd (process_audio_chunk e data st)) = chunk_size st
  /\ wake_word (snd (process_audio_chunk e data st)) = wake_word st
  /\ stream (snd (process_audio_chunk e data st)) = stream st.
Proof.
  unfold process_audio_chunk.
  destruct (well_sized st data); simpl; [|auto].
  destruct (vad_is_speech e data); simpl; [auto|].
  destruct (speech_detected st); simpl; [|auto].
  destruct (audio_buffer st); simpl; auto.
Qed.

(** What one frame does to a buffer that is in step. *)
Lemma process_cases data st :
  in_step st ->
  let '(chunks, st1) := process_audio_chunk e data st in
  (well_sized st data = false /\ chunks = None /\ st1 = st)
  \/ (well_sized st data = true /\ speech data = true /\ chunks = None
      /\ audio_buffer st1 = audio_buffer st ++ [data]
      /\ speech_detected st1 = true)
  \/ (well_sized st data = true /\ speech data = false
      /\ audio_buffer st <> [] /\ chunks = Some (audio_buffer st)
      /\ audio_buffer st1 = audio_buffer st /\ speech_detected st1 = false)
  \/ (well_sized st data = true /\ speech data = false
      /\ audio_buffer st = [] /\ chunks = None /\ st1 = st).
Proof.
  unfold in_step, process_audio_chunk, speech. intros Hstep.
  destruct (well_sized st data); simpl; [|now left].
  destruct (vad_is_speech e data); simpl; [right; left; auto|].
  rewrite Hstep.
  destruct (audio_buffer st) as [|f b] eqn:Eb; simpl.
  - do 3 right. repeat split; reflexivity.
  - right; right; left. repeat split; try reflexivity; try assumption.
    discriminate.
Qed.

Lemma classified_cons_some st data reads :
  classified st (Some data :: reads)
  = if well_sized st data then data :: classified st reads
    else classified st reads.
Proof. unfold classified. simpl. reflexivity. Qed.

Lemma classified_same_size st st' reads :
  chunk_size st' = chunk_size st -> classified st' reads = classified st reads.
Proof.
  intros H. unfold classified. apply filter_ext. intros f.
  unfold well_sized. now rewrite H.
Qed.

(** The emitted segments, then the buffer in progress, are the maximal
    runs of what was fed; the flag at the end says whether the last frame
    was speech. *)
Lemma feed_runs reads : forall st,
  in_step st ->
  Forall (fun f => speech f = true) (audio_buffer st) ->
  let '(segs, st') := feed e reads st in
  maximal_runs speech (audio_buffer st ++ classified st reads)
  = segs ++ in_progress st'
  /\ speech_detected st'
     = ends_in_speech speech (audio_buffer st ++ classified st reads)
  /\ in_step st'
  /\ Forall (fun seg => seg <> [] /\ Forall (fun f => speech f = true) seg) segs
  /\ Forall (fun f => speech f = true) (audio_buffer st').
Proof.
  induction reads as [|[data|] reads IH]; intros st Hstep Hall; simpl.
  - rewrite app_nil_r. unfold in_progress.
    rewrite (maximal_runs_all_speech _ Hall).
    rewrite (ends_in_speech_all_speech _ Hall).
    rewrite Hstep. split; [|repeat split; auto].
    destruct (audio_buffer st); reflexivity.
  - pose proof (process_cases data st Hstep) as Hc.
    pose proof (process_keeps_config data st) as (Hsize & _ & _).
    destruct (process_audio_chunk e data st) as [chunks st1]. simpl in Hsize.
    rewrite classified_cons_some.
    destruct Hc as [(Hw & -> & ->)|[(Hw & Hs & -> & Hb & Hd)
                   |[(Hw & Hs & Hne & -> & Hb & Hd)|(Hw & Hs & Hnil & -> & ->)]]];
      rewrite Hw; simpl.
    + apply IH; assumption.
    + assert (Hstep1 : in_step st1).
      { unfold in_step. rewrite Hd, Hb, length_app. simpl.
        destruct (length (audio_buffer st)); reflexivity. }
      assert (Hall1 : Forall (fun f => speech f = true) (audio_buffer st1)).
      { rewrite Hb. apply Forall_app. split; [assumption|]. now constructor. }
      specialize (IH st1 Hstep1 Hall1).
      rewrite (classified_same_size st st1) in IH by assumption.
      rewrite Hb, <- app_assoc in IH. exact IH.
    + assert (Htruthy : match audio_buffer st with [] => false | _ :: _ => true end
                        = true)
        by (destruct (audio_buffer st); [congruence|reflexivity]).
      rewrite Htruthy.
      assert (Hstep0 : in_step (set_buffer [] st1))
        by (unfold in_step; simpl; assumption).
      specialize (IH (set_buffer [] st1) Hstep0 (Forall_nil_2 _)).
      rewrite (classified_same_size st (set_buffer [] st1)) in IH
        by (simpl; assumption).
      destruct (feed e reads (set_buffer [] st1)) as [segs st2].
      destruct IH as (Hruns & Hflag & Hstep2 & Hsegs & Hbuf).
      rewrite maximal_runs_speech_then_silence by assumption.
      rewrite ends_in_speech_after_silence by assumption.
      change (audio_buffer (set_buffer [] st1) ++ classified st reads)
        with (classified st reads) in Hruns, Hflag.
      rewrite Hruns. split.
      { destruct (audio_buffer st); [congruence|reflexivity]. }
      repeat split; try assumption.
      constructor; [|assumption]. split; assumption.
    + specialize (IH st Hstep Hall).
      destruct (feed e reads st) as [segs st2].
      rewrite maximal_runs_speech_then_silence by assumption.
      rewrite ends_in_speech_after_silence by assumption.
      rewrite Hnil in *. exact IH.
  - apply IH; assumption.
Qed.

End VoiceActivityFacts.

(** ** The wake-word detector *)

Section DetectorFacts.
Import Py VoiceActivation.

Variable e : env.

Lemma save_audio_writable seg name d :
  writable (snd (save_audio seg name d)) = writable d.
Proof.
  unfold save_audio. destruct seg; [reflexivity|].
  destruct (writable d) eqn:E; simpl; auto.
Qed.

Lemma save_audio_keeps seg name d p :
  is_Some (files d !! p) -> is_Some (files (snd (save_audio seg name d)) !! p).
Proof.
  unfold save_audio. destruct seg; [auto|].
  destruct (writable d); simpl; [|auto].
  intros Hp. destruct (decide (join_path "recordings" name = p)) as [->|Hne].
  - rewrite lookup_insert_eq. eauto.
  - now rewrite lookup_insert_ne.
Qed.

(** The transcript of a segment depends on the disk only through whether
    it can be written. *)
Lemma transcript_cases d seg :
  transcript e d seg
  = match seg with
    | [] => None
    | _ :: _ =>
      if writable d then
        let text := match recognize e (String.concat "" seg) with
                    | Some (tr :: _) => lower tr
                    | _ => ""
                    end in
        if nonempty text then Some text else None
      else None
    end.
Proof.
  unfold transcript, save_audio. destruct seg as [|f seg]; [reflexivity|].
  destruct (writable d); [|reflexivity].
  unfold transcribe_audio. simpl files. rewrite lookup_insert_eq.
  destruct (recognize e _) as [[|tr ?]|]; reflexivity.
Qed.

Lemma transcript_same_writable d d' seg :
  writable d' = writable d -> transcript e d' seg = transcript e d seg.
Proof. intros H. rewrite !transcript_cases, H. reflexivity. Qed.

Lemma transcript_saved d seg t :
  transcript e d seg = Some t ->
  files (snd (save_audio seg scratch_name d)) !! scratch_path
  = Some (String.concat "" seg).
Proof.
  rewrite transcript_cases. unfold save_audio, scratch_path.
  destruct seg as [|f seg]; [discriminate|].
  destruct (writable d); [|discriminate]. intros _. simpl.
  apply lookup_insert_eq.
Qed.

Lemma segment_triggers_transcript st seg d :
  segment_triggers e st seg d
  = (match transcript e d seg with
     | Some t => contains (wake_word st) (lower t)
     | None => false
     end, snd (save_audio seg scratch_name d)).
Proof.
  unfold segment_triggers, transcript.
  destruct (save_audio seg scratch_name d) as [[path|] d1]; simpl; [|reflexivity].
  destruct (nonempty (transcribe_audio e path d1)); reflexivity.
Qed.

(** The test the loop makes on a segment, for a detector whose
    [wake_word] is the lower-cased [phrase]. *)
Lemma segment_triggers_phrase st seg d phrase :
  wake_word st = lower phrase ->
  fst (segment_triggers e st seg d) = triggers e d phrase seg.
Proof.
  intros Hw. rewrite segment_triggers_transcript. unfold triggers, contains_ci.
  simpl. rewrite Hw. reflexivity.
Qed.

Lemma triggers_same_writable d d' phrase seg :
  writable d' = writable d -> triggers e d' phrase seg = triggers e d phrase seg.
Proof. intros H. unfold triggers. now rewrite (transcript_same_writable d d'). Qed.

Lemma save_audio_scratch seg d :
  seg <> [] -> writable d = true ->
  files (snd (save_audio seg scratch_name d)) !! scratch_path
  = Some (String.concat "" seg).
Proof.
  unfold save_audio, scratch_path. destruct seg; [congruence|].
  intros _ ->. simpl. apply lookup_insert_eq.
Qed.

(** The loop returns [True] exactly when one of the segments it would hear
    triggers; then the scratch file holds that segment. Without a trigger
    the scratch file holds the last segment heard. No file is ever
    removed. *)
Lemma listen_loop_feed phrase reads : forall st d,
  wake_word st = lower phrase ->
  in_step st ->
  let '(segs, st') := feed e reads st in
  let '(detected, _, d') := listen_loop e reads st d in
  detected = existsb (triggers e d phrase) (segs ++ in_progress st')
  /\ (detected = true ->
      exists seg, In seg (segs ++ in_progress st')
                  /\ triggers e d phrase seg = true
                  /\ files d' !! scratch_path = Some (String.concat "" seg))
  /\ (forall p, is_Some (files d !! p) -> is_Some (files d' !! p))
  /\ (detected = false -> writable d = true ->
      files d' !! scratch_path
      = match last (segs ++ in_progress st') with
        | Some seg => Some (String.concat "" seg)
        | None => files d !! scratch_path
        end).
Proof.
  induction reads as [|[data|] reads IH]; intros st d Hw Hstep; simpl.
  - unfold final_flush, in_progress.
    destruct (speech_detected st && Nat.ltb 0 (length (audio_buffer st))) eqn:Ecu.
    + pose proof (segment_triggers_phrase st (audio_buffer st) d phrase Hw) as Hhit.
      pose proof (segment_triggers_transcript st (audio_buffer st) d) as Hd.
      destruct (segment_triggers e st (audio_buffer st) d) as [hit d1].
      simpl in Hhit. injection Hd as _ Hd1. subst d1.
      destruct hit; simpl; rewrite <- Hhit; simpl.
      * split; [reflexivity|]. split; [|split; [intros p; apply save_audio_keeps|]].
        -- intros _. exists (audio_buffer st). split; [now left|].
           split; [now symmetry|].
           unfold triggers in Hhit.
           destruct (transcript e d (audio_buffer st)) eqn:Et; [|discriminate].
           eapply transcript_saved; eassumption.
        -- discriminate.
      * split; [reflexivity|]. split; [discriminate|].
        split; [intros p; apply save_audio_keeps|].
        intros _ Hwr. apply save_audio_scratch; [|assumption].
        apply andb_true_iff in Ecu as [_ Hlen].
        destruct (audio_buffer st); [discriminate|congruence].
    + simpl. split; [reflexivity|]. split; [discriminate|auto].
  - pose proof (process_cases e data st Hstep) as Hc.
    pose proof (process_keeps_config e data st) as (Hsize & Hword & _).
    destruct (process_audio_chunk e data st) as [chunks st1].
    simpl in Hsize, Hword.
    destruct Hc as [(Hsz & -> & ->)|[(Hsz & Hs & -> & Hb & Hd)
                   |[(Hsz & Hs & Hne & -> & Hb & Hd)|(Hsz & Hs & Hnil & -> & ->)]]];
      simpl.
    + apply IH; assumption.
    + apply IH; [congruence|].
      unfold in_step. rewrite Hd, Hb, length_app. simpl.
      destruct (length (audio_buffer st)); reflexivity.
    + assert (Htruthy : match audio_buffer st with [] => false | _ :: _ => true end
                        = true)
        by (destruct (audio_buffer st); [congruence|reflexivity]).
      rewrite Htruthy.
      assert (Hw1 : wake_word st1 = lower phrase) by congruence.
      pose proof (segment_triggers_phrase st1 (audio_buffer st) d phrase Hw1) as Hhit.
      pose proof (segment_triggers_transcript st1 (audio_buffer st) d) as Hd1.
      destruct (segment_triggers e st1 (audio_buffer st) d) as [hit d1].
      simpl in Hhit. injection Hd1 as _ Hd1. subst d1.
      set (d1 := snd (save_audio (audio_buffer st) scratch_name d)).
      assert (Hstep0 : in_step (set_buffer [] st1))
        by (unfold in_step; simpl; assumption).
      specialize (IH (set_buffer [] st1) d1 Hw1 Hstep0).
      destruct (feed e reads (set_buffer [] st1)) as [segs st2].
      destruct hit; simpl; rewrite <- Hhit; simpl.
      * split; [reflexivity|]. split; [|split; [intros p; apply save_audio_keeps|]].
        -- intros _. exists (audio_buffer st). split; [now left|].
           split; [now symmetry|].
           unfold triggers in Hhit.
           destruct (transcript e d (audio_buffer st)) eqn:Et; [|discriminate].
           eapply transcript_saved; eassumption.
        -- discriminate.
      * destruct (listen_loop e reads (set_buffer [] st1) d1) as [[detected st3] d3].
        destruct IH as (Hdet & Hfile & Hkeep & Hlast).
        assert (Hwr : writable d1 = writable d) by apply save_audio_writable.
        split; [|split; [|split]].
        -- rewrite Hdet. apply existsb_pointwise. intros seg.
           now apply triggers_same_writable.
        -- intros Ht. destruct (Hfile Ht) as (seg & Hin & Htr & Hf).
           exists seg. split; [now right|]. split; [|assumption].
           now rewrite <- (triggers_same_writable d d1).
        -- intros p Hp. apply Hkeep. now apply save_audio_keeps.
        -- intros Hno Hwd. rewrite (Hlast Hno) by congruence.
           rewrite last_cons.
           destruct (last (segs ++ in_progress st2)); [reflexivity|].
           now apply save_audio_scratch.
    + apply IH; assumption.
  - apply IH; assumption.
Qed.

(** The stream handle plays no part in what the buffer emits. *)
Lemma process_set_stream b data st :
  process_audio_chunk e data (set_stream b st)
  = (fst (process_audio_chunk e data st),
     set_stream b (snd (process_audio_chunk e data st))).
Proof.
  unfold process_audio_chunk, well_sized. simpl.
  destruct (Nat.eqb _ _); simpl; [|reflexivity].
  destruct (vad_is_speech e data); simpl; [reflexivity|].
  destruct (speech_detected st); simpl; [|reflexivity].
  destruct (audio_buffer st); reflexivity.
Qed.

Lemma feed_set_stream b reads : forall st,
  feed e reads (set_stream b st)
  = (fst (feed e reads st), set_stream b (snd (feed e reads st))).
Proof.
  induction reads as [|[data|] reads IH]; intros st; simpl.
  - reflexivity.
  - rewrite process_set_stream.
    destruct (process_audio_chunk e data st) as [chunks st1]. simpl.
    destruct (chunks_truthy chunks).
    + change (set_buffer [] (set_stream b st1))
        with (set_stream b (set_buffer [] st1)).
      rewrite IH. destruct (feed e reads (set_buffer [] st1)); reflexivity.
    + apply IH.
  - apply IH.
Qed.

Lemma segments_heard_set_stream b reads st :
  segments_heard e reads (set_stream b st) = segments_heard e reads st.
Proof.
  unfold segments_heard.
  change (set_speech_detected false (set_buffer [] (set_stream b st)))
    with (set_stream b (set_speech_detected false (set_buffer [] st))).
  rewrite feed_set_stream.
  destruct (feed e reads (set_speech_detected false (set_buffer [] st))).
  reflexivity.
Qed.

End DetectorFacts.

(** ** The detector and the buffer: main results *)

Section DetectorResults.
Import Py VoiceActivation.

Lemma maximal_runs_no_speech (speech : frame -> bool) l :
  Forall (fun f => speech f = false) l -> maximal_runs speech l = [].
Proof.
  unfold maximal_runs. induction l as [|f l IH]; intros Hall; [reflexivity|].
  inversion Hall as [|? ? Hf Hl]; subst. specialize (IH Hl). simpl.
  destruct (runs speech l) as [lead later]. rewrite Hf.
  destruct lead; assumption.
Qed.




(** C4 as stated does not hold: one speech frame and nothing after it is
    one maximal run, and no segment leaves the buffer. *)
Lemma one_segment_per_run_fails :
  ~ one_segment_per_run (Scenario.hears "") [Some Scenario.speech_frame]
      Scenario.detector.
Proof. unfold one_segment_per_run. vm_compute. discriminate. Qed.

(** C4, amended. Fed any sequence of reads, the buffer emits, in order and
    once each, the maximal runs of speech frames that a silence frame
    closes; a run that is still open when the input ends is not emitted
    and is what the buffer holds. Every emitted segment is non-empty and
    consists of speech frames only, and input without a speech frame emits
    nothing. *)
Theorem feed_emits_closed_runs (e : env) (reads : list (option frame)) (st : t) :
  let speech := vad_is_speech e in
  let frames := classified st reads in
  let '(segs, st') := feed e reads (set_speech_detected false (set_buffer [] st)) in
  maximal_runs speech frames
  = segs ++ (if ends_in_speech speech frames then [audio_buffer st'] else [])
  /\ Forall (fun seg => seg <> [] /\ Forall (fun f => speech f = true) seg) segs
  /\ (Forall (fun f => speech f = false) frames -> segs = []).
Proof.
  intros speech frames.
  pose proof (feed_runs e reads (set_speech_detected false (set_buffer [] st))
                eq_refl (Forall_nil_2 _)) as H.
  destruct (feed e reads _) as [segs st'].
  change (audio_buffer (set_speech_detected false (set_buffer [] st))
          ++ classified (set_speech_detected false (set_buffer [] st)) reads)
    with frames in H.
  destruct H as (Hruns & Hflag & Hstep & Hsegs & _).
  assert (Hprog : in_progress st'
                  = if ends_in_speech speech frames then [audio_buffer st'] else []).
  { unfold in_progress. unfold in_step in Hstep. fold speech in Hflag.
    rewrite <- Hflag. rewrite Hstep.
    destruct (Nat.ltb 0 (length (audio_buffer st'))); reflexivity. }
  fold speech in Hruns. rewrite Hprog in Hruns.
  split; [assumption|]. split; [assumption|].
  intros Hsilent. rewrite (maximal_runs_no_speech _ _ Hsilent) in Hruns.
  symmetry in Hruns. now apply app_eq_nil in Hruns.
Qed.

Lemma feed_emits_closed_runs_witness :
  let e := Scenario.hears "" in
  let reads := [Some Scenario.silence_frame; None; Some "short";
                Some Scenario.silence_frame] in
  Forall (fun f => vad_is_speech e f = false)
    (classified Scenario.detector reads)
  /\ fst (feed e reads
            (set_speech_detected false (set_buffer [] Scenario.detector))) = [].
Proof.
  intros e reads.
  assert (Hsilent : Forall (fun f => vad_is_speech e f = false)
                      (classified Scenario.detector reads)).
  { vm_compute. repeat constructor. }
  split; [exact Hsilent|].
  pose proof (feed_emits_closed_runs e reads Scenario.detector) as H.
  cbv zeta in H.
  destruct (feed e reads _) as [segs st']. simpl.
  destruct H as (_ & _ & H). exact (H Hsilent).
Defined.

(** C8 as stated does not hold: the detector hears one segment, the
    recogniser transcribes it, and the scratch file is still there when
    the detector returns. *)
Lemma scratch_deleted_after_success_fails :
  ~ scratch_deleted_after_success (Scenario.hears "Please REGISTER me")
      [Some Scenario.speech_frame; Some Scenario.silence_frame]
      Scenario.detector Scenario.empty_disk.
Proof.
  intros H.
  specialize (H [Scenario.speech_frame] "please register me").
  assert (Hin : In [Scenario.speech_frame]
                  (segments_heard (Scenario.hears "Please REGISTER me")
                     [Some Scenario.speech_frame; Some Scenario.silence_frame]
                     Scenario.detector)) by (vm_compute; auto).
  assert (Ht : transcript (Scenario.hears "Please REGISTER me")
                 Scenario.empty_disk [Scenario.speech_frame]
               = Some "please register me") by (vm_compute; reflexivity).
  specialize (H Hin Ht). vm_compute in H. discriminate.
Qed.

(** C8, amended. The wake-word detector never deletes a file: whatever was
    on the disk before a call is there after it. Each segment is saved
    under the one path recordings/recorded_audio.wav, over the previous
    one: after a call that returned [True] the file holds the segment
    whose transcript matched, and after a call that returned [False] on a
    writable disk it holds the last segment heard, whether its
    transcription gave a text or not. *)
Theorem detector_keeps_scratch_file (e : env) (reads : list (option frame))
    (st : t) (d : disk) (phrase : string) :
  wake_word st = lower phrase ->
  let '(detected, _, d') := listen_for_wake_word e reads st d in
  (forall p, is_Some (files d !! p) -> is_Some (files d' !! p))
  /\ (detected = true ->
      exists seg, In seg (segments_heard e reads st)
                  /\ triggers e d phrase seg = true
                  /\ files d' !! scratch_path = Some (String.concat "" seg))
  /\ (detected = false -> writable d = true ->
      stream st = true \/ device_opens e = true ->
      files d' !! scratch_path
      = match last (segments_heard e reads st) with
        | Some seg => Some (String.concat "" seg)
        | None => files d !! scratch_path
        end).
Proof.
  intros Hw.
  assert (Hgoal : forall st0, wake_word st0 = lower phrase ->
            segments_heard e reads st0 = segments_heard e reads st ->
            let '(detected, _, d') :=
              listen_loop e reads (set_speech_detected false (set_buffer [] st0)) d in
            (forall p, is_Some (files d !! p) -> is_Some (files d' !! p))
            /\ (detected = true ->
                exists seg, In seg (segments_heard e reads st)
                            /\ triggers e d phrase seg = true
                            /\ files d' !! scratch_path
                               = Some (String.concat "" seg))
            /\ (detected = false -> writable d = true ->
                stream st = true \/ device_opens e = true ->
                files d' !! scratch_path
                = match last (segments_heard e reads st) with
                  | Some seg => Some (String.concat "" seg)
                  | None => files d !! scratch_path
                  end)).
  { intros st0 Hw0 Hsame. rewrite <- Hsame. unfold segments_heard.
    pose proof (listen_loop_feed e phrase reads
                  (set_speech_detected false (set_buffer [] st0)) d Hw0
                  eq_refl) as H.
    destruct (feed e reads _) as [segs st'].
    destruct (listen_loop e reads _ d) as [[detected st''] d'].
    destruct H as (_ & Hdet & Hkeep & Hlast). auto. }
  unfold listen_for_wake_word. destruct (stream st) eqn:Es.
  - apply Hgoal; auto.
  - unfold initialize_audio_stream. destruct (device_opens e) eqn:Eo.
    + apply Hgoal; [assumption|]. apply segments_heard_set_stream.
    + split; [auto|]. split; [discriminate|].
      intros _ _ [?|?]; discriminate.
Qed.

Lemma detector_keeps_scratch_file_witness :
  let e := Scenario.hears "Please REGISTER me" in
  let reads := [Some Scenario.speech_frame; Some Scenario.silence_frame] in
  wake_word Scenario.detector = lower "register"
  /\ fst (fst (listen_for_wake_word e reads Scenario.detector
                 Scenario.empty_disk)) = true
  /\ exists seg,
       files (snd (listen_for_wake_word e reads Scenario.detector
                     Scenario.empty_disk)) !! scratch_path
       = Some (String.concat "" seg).
Proof.
  intros e reads. split; [reflexivity|].
  pose proof (detector_keeps_scratch_file e reads Scenario.detector
                Scenario.empty_disk "register" eq_refl) as H.
  destruct (listen_for_wake_word e reads Scenario.detector Scenario.empty_disk)
    as [[detected st'] d'] eqn:El.
  assert (Hd : detected = true).
  { apply (f_equal (fun x => fst (fst x))) in El. vm_compute in El.
    symmetry. exact El. }
  split; [exact Hd|].
  destruct H as (_ & H & _). destruct (H Hd) as (seg & _ & _ & Hf).
  exists seg. exact Hf.
Defined.

End DetectorResults.

(** ** The relational store: main results *)

Section DatabaseResults.
Import Py Database.

(** C10. [edit] returns [True] for every id, name, notes and category; when
    no row has the id, the UPDATE matches nothing and the table is left as
    it was, so [True] does not say that a row was changed. *)
Theorem edit_returns_true (id : Z) (name notes category : string) (db : t) :
  snd (edit id name notes category db) = true
  /\ ((forall r, In r (rows db) -> row_id r <> id) ->
      fst (edit id name notes category db) = db).
Proof.
  split; [reflexivity|]. intros Hnone. unfold edit. simpl.
  destruct db as [l s]. simpl in *. f_equal.
  induction l as [|r l IH]; simpl; [reflexivity|].
  rewrite IH by (intros r' Hr'; apply Hnone; now right).
  f_equal. unfold update_row.
  destruct (Z.eqb_spec (row_id r) id) as [Heq|_]; [|reflexivity].
  exfalso. apply (Hnone r); [now left|assumption].
Qed.

Lemma edit_returns_true_witness :
  (forall r, In r (rows Scenario.one_row) -> row_id r <> 7)
  /\ snd (edit 7 "Bob" "" "Other" Scenario.one_row) = true
  /\ fst (edit 7 "Bob" "" "Other" Scenario.one_row) = Scenario.one_row.
Proof.
  assert (Hnone : forall r, In r (rows Scenario.one_row) -> row_id r <> 7).
  { intros r [<-|[]]. simpl. lia. }
  split; [exact Hnone|].
  destruct (edit_returns_true 7 "Bob" "" "Other" Scenario.one_row) as [Ht Hsame].
  split; [exact Ht | exact (Hsame Hnone)].
Defined.

End DatabaseResults.

(** ** The registration dialog *)

Section DialogFacts.
Import Py Machine VoiceRecognition.

Lemma quiet_refl w : quiet w w.
Proof.
  repeat split. exists []. split; [now rewrite app_nil_r | constructor].
Qed.

Lemma quiet_trans w1 w2 w3 : quiet w1 w2 -> quiet w2 w3 -> quiet w1 w3.
Proof.
  intros (Hs1 & Hf1 & Hw1 & Hi1 & evs1 & Ht1 & Hq1)
         (Hs2 & Hf2 & Hw2 & Hi2 & evs2 & Ht2 & Hq2).
  split; [congruence|]. split; [congruence|]. split; [congruence|].
  split; [congruence|].
  exists (evs1 ++ evs2). split.
  - rewrite Ht2, Ht1. now rewrite app_assoc.
  - apply Forall_app. auto.
Qed.

Lemma quiet_emit ev w : is_store_call ev = false -> quiet w (emit ev w).
Proof.
  intros Hev. repeat split. exists [ev]. split; [reflexivity|].
  constructor; [assumption|constructor].
Qed.

Lemma quiet_same w w' :
  sql_db w' = sql_db w -> face_db w' = face_db w ->
  VoiceActivation.writable (scratch w') = VoiceActivation.writable (scratch w) ->
  insert_raises w' = insert_raises w ->
  trace w' = trace w ->
  quiet w w'.
Proof.
  intros Hs Hf Hw Hi Ht. split; [assumption|]. split; [assumption|].
  split; [assumption|]. split; [assumption|].
  exists []. split; [now rewrite app_nil_r | constructor].
Qed.


Lemma silent_refl w : silent w w.
Proof. split; [apply quiet_refl | reflexivity]. Qed.

Lemma silent_trans w1 w2 w3 : silent w1 w2 -> silent w2 w3 -> silent w1 w3.
Proof.
  intros [Hq1 Hm1] [Hq2 Hm2]. split; [eapply quiet_trans; eassumption|congruence].
Qed.

Lemma silent_emit ev w : is_store_call ev = false -> silent w (emit ev w).
Proof. intros H. split; [now apply quiet_emit | reflexivity]. Qed.

Lemma silent_same w w' :
  sql_db w' = sql_db w -> face_db w' = face_db w -> scratch w' = scratch w ->
  insert_raises w' = insert_raises w ->
  trace w' = trace w -> mic w' = mic w -> silent w w'.
Proof.
  intros ? ? Hd ? ? ?. split; [apply quiet_same; congruence | assumption].
Qed.

(** *** The capture pipeline *)

Lemma save_audio_keeps_writable recording filename d :
  VoiceActivation.writable (snd (save_audio recording filename d))
  = VoiceActivation.writable d.
Proof.
  unfold save_audio. destruct (negb (nonempty recording)); [reflexivity|].
  destruct (VoiceActivation.writable d) eqn:E; simpl; auto.
Qed.

Lemma voice_input_keeps_writable c d :
  VoiceActivation.writable (snd (voice_input c d)) = VoiceActivation.writable d.
Proof.
  unfold voice_input. destruct (recording c) as [bytes|]; [|reflexivity].
  destruct (negb (nonempty bytes)); [reflexivity|].
  pose proof (save_audio_keeps_writable bytes ("input_" +:+ stamp c +:+ ".wav") d)
    as H.
  destruct (save_audio bytes _ d) as [[path|] d1]; simpl in *; [|assumption].
  destruct (transcribe_audio (recognition c) path d1); simpl; assumption.
Qed.

(** What a capture gives depends on the disk only through whether it can
    be written: the file read back is the one just saved. *)
Lemma voice_input_value c d :
  fst (voice_input c d)
  = match recording c with
    | None => None
    | Some bytes =>
      if nonempty bytes && VoiceActivation.writable d then
        match recognition c with
        | Some (transcript :: _) => Some (clean transcript)
        | Some [] => Some (clean "")
        | None => None
        end
      else None
    end.
Proof.
  unfold voice_input. destruct (recording c) as [bytes|]; [|reflexivity].
  unfold save_audio. destruct (nonempty bytes) eqn:Eb; simpl; [|reflexivity].
  destruct (VoiceActivation.writable d); simpl; [|reflexivity].
  unfold transcribe_audio. simpl. rewrite lookup_insert_eq, Eb. simpl.
  destruct (recognition c) as [[|transcript ?]|]; reflexivity.
Qed.

(** It is the dialog's capture that removes its file after a transcription
    that succeeded and keeps the file of one that failed. *)
Lemma voice_input_scratch_file c d bytes :
  recording c = Some bytes -> bytes <> "" -> VoiceActivation.writable d = true ->
  let path := VoiceActivation.join_path "recordings"
                ("input_" +:+ stamp c +:+ ".wav") in
  match fst (voice_input c d) with
  | Some _ => VoiceActivation.files (snd (voice_input c d)) !! path = None
  | None => VoiceActivation.files (snd (voice_input c d)) !! path = Some bytes
  end.
Proof.
  intros Hrec Hne Hwr. apply nonempty_true in Hne.
  unfold voice_input, save_audio, transcribe_audio.
  rewrite Hrec, Hne, Hwr. simpl. rewrite lookup_insert_eq, Hne. simpl.
  destruct (recognition c) as [[|transcript ?]|]; simpl.
  - apply lookup_delete_eq.
  - apply lookup_delete_eq.
  - apply lookup_insert_eq.
Qed.

Lemma hear_same_writable w w' a :
  VoiceActivation.writable (scratch w') = VoiceActivation.writable (scratch w) ->
  hear w' a = hear w a.
Proof.
  intros H. destruct a as [c|]; [|reflexivity]. simpl.
  now rewrite !voice_input_value, H.
Qed.

Lemma said_quiet w w' : quiet w w' -> mic w' = mic w -> said w' = said w.
Proof.
  intros (_ & _ & Hw & _) Hm. unfold said. rewrite Hm.
  apply map_ext. intros a. now apply hear_same_writable.
Qed.

Lemma said_silent w w' : silent w w' -> said w' = said w.
Proof. intros [Hq Hm]. now apply said_quiet. Qed.

(** None of the display methods writes to a store or reads the microphone. *)
Lemma silent_update_status a b c w : silent w (update_status a b c w).
Proof.
  unfold update_status. eapply silent_trans; [|now apply silent_emit].
  now apply silent_same.
Qed.

Lemma silent_render w : silent w (render w).
Proof. now apply silent_emit. Qed.

Lemma silent_show_notification text w : silent w (show_notification text w).
Proof. now apply silent_emit. Qed.

Lemma silent_set_confirmation_mode b w : silent w (set_confirmation_mode b w).
Proof. now apply silent_same. Qed.

Lemma silent_set_current_step n w : silent w (set_current_step n w).
Proof. now apply silent_same. Qed.

Lemma silent_show_input_confirmation kind text w :
  silent w (show_input_confirmation kind text w).
Proof.
  unfold show_input_confirmation.
  eapply silent_trans; [apply silent_set_confirmation_mode|].
  eapply silent_trans; [|apply silent_render]. now apply silent_emit.
Qed.

Lemma silent_update_voice_feedback text final w :
  silent w (update_voice_feedback text final w).
Proof.
  unfold update_voice_feedback.
  eapply silent_trans; [|apply silent_render]. now apply silent_emit.
Qed.

Lemma silent_next_registration_step text w :
  silent w (next_registration_step text w).
Proof.
  unfold next_registration_step.
  eapply silent_trans; [apply (silent_emit (NextRegistrationStep text)); reflexivity|].
  eapply silent_trans; [|apply silent_render].
  destruct (Z.ltb 3 _).
  - eapply silent_trans; [apply silent_show_notification|].
    eapply silent_trans; [apply silent_set_current_step|].
    apply silent_update_status.
  - apply silent_set_current_step.
Qed.

Lemma silent_locked body w :
  (forall w0, silent w0 (body w0)) -> silent w (locked body w).
Proof.
  intros Hbody. unfold locked.
  eapply silent_trans; [apply (silent_emit Acquire); reflexivity|].
  eapply silent_trans; [apply Hbody|]. now apply silent_emit.
Qed.

(** *** What the relations say about the list they read *)

Lemma answered_shorter l b out :
  answered l b out -> (length out < length l)%nat.
Proof. induction 1; simpl; lia. Qed.

Lemma answered_det l b out :
  answered l b out -> forall b' out', answered l b' out' -> b = b' /\ out = out'.
Proof.
  induction 1 as [r rest Hy|r rest Hy Hn|r rest b out Hy Hn _ IH|rest b out _ IH];
    intros b' out' H'; inversion H'; subst; try congruence; auto.
Qed.

Lemma field_confirmed_shorter l v out :
  field_confirmed l v out -> (length out < length l)%nat.
Proof.
  induction 1 as [v rest out _ Ha|v rest mid v' out _ Ha _ IH|? ? ? _ IH|? ? ? _ IH];
    simpl; try lia.
  - apply answered_shorter in Ha. lia.
  - apply answered_shorter in Ha. lia.
Qed.

Lemma field_confirmed_nonempty l v out : field_confirmed l v out -> v <> "".
Proof. induction 1; assumption. Qed.

Lemma field_confirmed_det l v out :
  field_confirmed l v out ->
  forall v' out', field_confirmed l v' out' -> v = v' /\ out = out'.
Proof.
  induction 1 as [v rest out Hv Ha|v rest mid v1 out Hv Ha _ IH|? ? ? _ IH|? ? ? _ IH];
    intros v' out' H'; inversion H'; subst; try congruence.
  - match goal with H : answered rest _ _ |- _ =>
      destruct (answered_det _ _ _ Ha _ _ H) as [_ ->] end. auto.
  - match goal with H : answered rest _ _ |- _ =>
      destruct (answered_det _ _ _ Ha _ _ H); discriminate end.
  - match goal with H : answered rest _ _ |- _ =>
      destruct (answered_det _ _ _ Ha _ _ H); discriminate end.
  - match goal with H : answered rest _ _ |- _ =>
      destruct (answered_det _ _ _ Ha _ _ H) as [_ <-] end. auto.
  - auto.
  - auto.
Qed.


(** *** The code against the relations *)

Lemma get_voice_input_cases w :
  match get_voice_input w with
  | Ok r w' =>
    said w = Heard r :: said w' /\ quiet w w'
    /\ (length (mic w') < length (mic w))%nat
  | Raised w' => said w = Fault :: said w' /\ quiet w w'
  | Starved w' => said w = [] /\ mic w = [] /\ w' = w
  end.
Proof.
  unfold get_voice_input, said. destruct (mic w) as [|[c|] rest] eqn:E.
  - auto.
  - pose proof (voice_input_keeps_writable c (scratch w)) as Hwr.
    destruct (voice_input c (scratch w)) as [r d] eqn:Ev. simpl in Hwr.
    assert (Hq : quiet w (set_scratch d (emit GetVoiceInput (set_mic rest w)))).
    { split; [reflexivity|]. split; [reflexivity|]. split; [exact Hwr|].
      split; [reflexivity|]. exists [GetVoiceInput].
      split; [reflexivity|]. repeat constructor. }
    split; [|split; [exact Hq|simpl; lia]].
    simpl. rewrite Ev. simpl. f_equal.
    apply map_ext. intros a. symmetry. apply hear_same_writable. exact Hwr.
  - split; [reflexivity|].
    eapply quiet_trans; [|apply quiet_emit; reflexivity]. now apply quiet_same.
Qed.

Lemma get_yes_no_response_loop_step fuel w :
  get_yes_no_response_loop (S fuel) w
  = match get_voice_input w with
    | Ok (Some r) w1 =>
      if yes_in r then Ok true w1
      else if no_in r then Ok false w1
      else get_yes_no_response_loop fuel w1
    | Ok None w1 => get_yes_no_response_loop fuel w1
    | Raised w1 => Raised w1
    | Starved w1 => Starved w1
    end.
Proof.
  simpl. unfold bind, yes_in, no_in.
  destruct (get_voice_input w) as [[r|] w1|w1|w1]; try reflexivity.
  destruct (contains "yes" (lower r)); [reflexivity|].
  destruct (contains "no" (lower r)); reflexivity.
Qed.

Lemma said_length w : length (said w) = length (mic w).
Proof. unfold said. apply length_map. Qed.

(** With fuel above the length of the input, the yes/no loop returns what
    [answered] says, and fails only where [answered] has nothing to say. *)
Lemma get_yes_no_response_loop_spec fuel : forall w,
  (length (mic w) < fuel)%nat ->
  match get_yes_no_response_loop fuel w with
  | Ok b w' => answered (said w) b (said w') /\ quiet w w'
  | Raised w' => (forall b out, ~ answered (said w) b out) /\ quiet w w'
  | Starved w' =>
    (forall b out, ~ answered (said w) b out) /\ quiet w w' /\ mic w' = []
  end.
Proof.
  induction fuel as [|fuel IH]; intros w Hlen; [lia|].
  rewrite get_yes_no_response_loop_step.
  pose proof (get_voice_input_cases w) as Hin.
  destruct (get_voice_input w) as [[r|] w1|w1|w1].
  - destruct Hin as (Hsaid & Hq & Hshort). rewrite Hsaid.
    destruct (yes_in r) eqn:Ey; [split; [now constructor|assumption]|].
    destruct (no_in r) eqn:En; [split; [now constructor|assumption]|].
    specialize (IH w1 ltac:(lia)).
    destruct (get_yes_no_response_loop fuel w1) as [b w2|w2|w2].
    + destruct IH as [Ha Hq2]. split; [now constructor|].
      eapply quiet_trans; eassumption.
    + destruct IH as [Hno Hq2]. split; [|eapply quiet_trans; eassumption].
      intros b out Ha. inversion Ha; subst; try congruence. eapply Hno; eassumption.
    + destruct IH as (Hno & Hq2 & Hend).
      split; [|split; [eapply quiet_trans; eassumption|assumption]].
      intros b out Ha. inversion Ha; subst; try congruence. eapply Hno; eassumption.
  - destruct Hin as (Hsaid & Hq & Hshort). rewrite Hsaid.
    specialize (IH w1 ltac:(lia)).
    destruct (get_yes_no_response_loop fuel w1) as [b w2|w2|w2].
    + destruct IH as [Ha Hq2]. split; [now constructor|].
      eapply quiet_trans; eassumption.
    + destruct IH as [Hno Hq2]. split; [|eapply quiet_trans; eassumption].
      intros b out Ha. inversion Ha; subst. eapply Hno; eassumption.
    + destruct IH as (Hno & Hq2 & Hend).
      split; [|split; [eapply quiet_trans; eassumption|assumption]].
      intros b out Ha. inversion Ha; subst. eapply Hno; eassumption.
  - destruct Hin as [Hsaid Hq]. rewrite Hsaid. split; [|assumption].
    intros b out Ha. inversion Ha.
  - destruct Hin as (Hsaid & Hmic & ->). rewrite Hsaid.
    split; [|split; [apply quiet_refl|assumption]].
    intros b out Ha. inversion Ha.
Qed.

Lemma get_yes_no_response_spec w :
  match get_yes_no_response w with
  | Ok b w' => answered (said w) b (said w') /\ quiet w w'
  | Raised w' => (forall b out, ~ answered (said w) b out) /\ quiet w w'
  | Starved w' =>
    (forall b out, ~ answered (said w) b out) /\ quiet w w' /\ mic w' = []
  end.
Proof. apply get_yes_no_response_loop_spec. lia. Qed.

Section Prompt.

Variable input_type : string.
Variable finish : string -> string.
Variable show_input_callback : string -> string -> world -> world.
Hypothesis callback_silent :
  forall kind text w, silent w (show_input_callback kind text w).

Lemma prompt_loop_step fuel w :
  prompt_loop input_type finish show_input_callback (S fuel) w
  = match get_voice_input w with
    | Ok (Some v) w1 =>
      if nonempty v then
        match get_yes_no_response (show_input_callback input_type v w1) with
        | Ok true w2 => Ok (finish v) w2
        | Ok false w2 =>
          prompt_loop input_type finish show_input_callback fuel w2
        | Raised w2 => Raised w2
        | Starved w2 => Starved w2
        end
      else prompt_loop input_type finish show_input_callback fuel w1
    | Ok None w1 => prompt_loop input_type finish show_input_callback fuel w1
    | Raised w1 => Raised w1
    | Starved w1 => Starved w1
    end.
Proof.
  simpl. unfold bind, lift.
  destruct (get_voice_input w) as [[v|] w1|w1|w1]; try reflexivity.
  destruct (nonempty v); [|reflexivity].
  destruct (get_yes_no_response _) as [[|] w2|w2|w2]; reflexivity.
Qed.

(** With fuel above the length of the input, a prompt returns the value
    [field_confirmed] names (through [finish]), and fails only where no
    value gets confirmed. *)
Lemma prompt_loop_spec fuel : forall w,
  (length (mic w) < fuel)%nat ->
  match prompt_loop input_type finish show_input_callback fuel w with
  | Ok v w' =>
    exists v0, v = finish v0 /\ field_confirmed (said w) v0 (said w') /\ quiet w w'
  | Raised w' => (forall v out, ~ field_confirmed (said w) v out) /\ quiet w w'
  | Starved w' =>
    (forall v out, ~ field_confirmed (said w) v out) /\ quiet w w' /\ mic w' = []
  end.
Proof.
  induction fuel as [|fuel IH]; intros w Hlen; [lia|].
  rewrite prompt_loop_step.
  pose proof (get_voice_input_cases w) as Hin.
  destruct (get_voice_input w) as [[v|] w1|w1|w1].
  - destruct Hin as (Hsaid & Hq & Hshort). rewrite Hsaid.
    destruct (nonempty v) eqn:Ev.
    + apply nonempty_true in Ev.
      pose proof (callback_silent input_type v w1) as Hsc.
      pose proof (said_silent _ _ Hsc) as Hsaidc.
      destruct Hsc as [Hqc Hmc].
      pose proof (get_yes_no_response_spec (show_input_callback input_type v w1))
        as Hyn.
      rewrite Hsaidc in Hyn.
      destruct (get_yes_no_response _) as [[|] w2|w2|w2].
      * destruct Hyn as [Ha Hq2]. exists v. split; [reflexivity|].
        split; [now constructor|].
        eapply quiet_trans; [eassumption|]. eapply quiet_trans; eassumption.
      * destruct Hyn as [Ha Hq2].
        pose proof (answered_shorter _ _ _ Ha) as Hlt.
        rewrite !said_length in Hlt.
        specialize (IH w2 ltac:(lia)).
        assert (Hq02 : quiet w w2).
        { eapply quiet_trans; [eassumption|]. eapply quiet_trans; eassumption. }
        destruct (prompt_loop _ _ _ fuel w2) as [v' w3|w3|w3].
        -- destruct IH as (v0 & -> & Hf & Hq3). exists v0.
           split; [reflexivity|]. split; [|eapply quiet_trans; eassumption].
           eapply confirmed_after_no; eassumption.
        -- destruct IH as [Hno Hq3]. split; [|eapply quiet_trans; eassumption].
           intros v' out Hf. inversion Hf; subst.
           ++ match goal with H : answered (said w1) true _ |- _ =>
                destruct (answered_det _ _ _ Ha _ _ H); discriminate end.
           ++ match goal with H : answered (said w1) false _ |- _ =>
                destruct (answered_det _ _ _ Ha _ _ H) as [_ <-] end.
              eapply Hno; eassumption.
           ++ congruence.
        -- destruct IH as (Hno & Hq3 & Hend).
           split; [|split; [eapply quiet_trans; eassumption|assumption]].
           intros v' out Hf. inversion Hf; subst.
           ++ match goal with H : answered (said w1) true _ |- _ =>
                destruct (answered_det _ _ _ Ha _ _ H); discriminate end.
           ++ match goal with H : answered (said w1) false _ |- _ =>
                destruct (answered_det _ _ _ Ha _ _ H) as [_ <-] end.
              eapply Hno; eassumption.
           ++ congruence.
      * destruct Hyn as [Hno Hq2].
        split; [|eapply quiet_trans; [eassumption|];
                 eapply quiet_trans; eassumption].
        intros v' out Hf. inversion Hf; subst; try congruence;
          eapply Hno; eassumption.
      * destruct Hyn as (Hno & Hq2 & Hend).
        split; [|split; [eapply quiet_trans; [eassumption|];
                         eapply quiet_trans; eassumption|assumption]].
        intros v' out Hf. inversion Hf; subst; try congruence;
          eapply Hno; eassumption.
    + apply nonempty_false in Ev. subst v.
      specialize (IH w1 ltac:(lia)).
      destruct (prompt_loop _ _ _ fuel w1) as [v' w3|w3|w3].
      * destruct IH as (v0 & -> & Hf & Hq3). exists v0.
        split; [reflexivity|]. split; [|eapply quiet_trans; eassumption].
        now constructor.
      * destruct IH as [Hno Hq3]. split; [|eapply quiet_trans; eassumption].
        intros v' out Hf. inversion Hf; subst; try congruence.
        eapply Hno; eassumption.
      * destruct IH as (Hno & Hq3 & Hend).
        split; [|split; [eapply quiet_trans; eassumption|assumption]].
        intros v' out Hf. inversion Hf; subst; try congruence.
        eapply Hno; eassumption.
  - destruct Hin as (Hsaid & Hq & Hshort). rewrite Hsaid.
    specialize (IH w1 ltac:(lia)).
    destruct (prompt_loop _ _ _ fuel w1) as [v' w3|w3|w3].
    + destruct IH as (v0 & -> & Hf & Hq3). exists v0.
      split; [reflexivity|]. split; [|eapply quiet_trans; eassumption].
      now constructor.
    + destruct IH as [Hno Hq3]. split; [|eapply quiet_trans; eassumption].
      intros v' out Hf. inversion Hf; subst. eapply Hno; eassumption.
    + destruct IH as (Hno & Hq3 & Hend).
      split; [|split; [eapply quiet_trans; eassumption|assumption]].
      intros v' out Hf. inversion Hf; subst. eapply Hno; eassumption.
  - destruct Hin as [Hsaid Hq]. rewrite Hsaid. split; [|assumption].
    intros v out Hf. inversion Hf.
  - destruct Hin as (Hsaid & Hmic & ->). rewrite Hsaid.
    split; [|split; [apply quiet_refl|assumption]].
    intros v out Hf. inversion Hf.
Qed.

End Prompt.

Lemma prompt_loop_prompt_spec input_type finish :
  (forall v, v <> "" -> finish v = v) ->
  prompt_spec (fun w => prompt_loop input_type finish show_input_confirmation
                          (S (length (mic w))) w).
Proof.
  intros Hfinish w.
  pose proof (prompt_loop_spec input_type finish show_input_confirmation
                silent_show_input_confirmation (S (length (mic w))) w
                ltac:(lia)) as H.
  destruct (prompt_loop _ _ _ _ w) as [v w'|w'|w'].
  - destruct H as (v0 & -> & Hf & Hq). split; [|assumption].
    rewrite Hfinish; [assumption|]. eapply field_confirmed_nonempty; eassumption.
  - assumption.
  - destruct H as (Hno & Hq & _). auto.
Qed.

Lemma prompt_for_name_spec : prompt_spec (prompt_for_name show_input_confirmation).
Proof. apply prompt_loop_prompt_spec. reflexivity. Qed.

Lemma prompt_for_notes_spec : prompt_spec (prompt_for_notes show_input_confirmation).
Proof. apply prompt_loop_prompt_spec. reflexivity. Qed.

Lemma prompt_for_category_spec :
  prompt_spec (prompt_for_category show_input_confirmation).
Proof.
  apply prompt_loop_prompt_spec. intros v Hv.
  apply nonempty_true in Hv. now rewrite Hv.
Qed.

End DialogFacts.

(** ** Registration *)

Section RegistrationFacts.
Import Py Machine VoiceRecognition System.

Lemma str_or_nonempty x d : x <> "" -> str_or x d = x.
Proof. intros H. unfold str_or. apply nonempty_true in H. now rewrite H. Qed.


(** The [try] block ends normally only with all three fields confirmed,
    and then it has written exactly one row and one embedding, the
    embedding under what [get_id] returned; in every other case it has
    written nothing. *)
Lemma registration_body_outcome face_data w :
  match registration_body face_data w with
  | Ok _ w' =>
    exists name notes category wd,
      three_confirmed (said w) name notes category
      /\ quiet w wd
      /\ sql_db w'
         = (if insert_raises w then sql_db w
            else Database.store_notes name notes category (sql_db w))
      /\ face_db w'
         = FaceDatabase.add_face (default VNone (face_data !! "encoding"))
             (Database.get_id name (sql_db w')) (face_db w)
      /\ trace w'
         = trace wd
           ++ [StoreNotes name notes category;
               AddFace (default VNone (face_data !! "encoding"))
                 (Database.get_id name (sql_db w'));
               StartThread name notes category;
               ShowNotification ("Face registered as " +:+ name)]
  | Raised w' | Starved w' =>
    (forall name notes category, ~ three_confirmed (said w) name notes category)
    /\ quiet w w'
  end.
Proof.
  unfold registration_body, bind, lift.
  set (w1 := update_voice_feedback "Listening for name..." false
               (update_status None (Some true) (Some false) w)).
  assert (Hs1 : silent w w1).
  { eapply silent_trans; [apply silent_update_status|].
    apply silent_update_voice_feedback. }
  pose proof (said_silent _ _ Hs1) as Hm1. destruct Hs1 as [Hq1 _].
  pose proof (prompt_for_name_spec w1) as Hname. rewrite Hm1 in Hname.
  destruct (prompt_for_name show_input_confirmation w1) as [name w2|w2|w2];
    [|destruct Hname as [Hno Hq2]; cbv beta iota;
      (split; [|eapply quiet_trans; eassumption]);
      intros n o c (l1 & _ & _ & H1 & _); eapply Hno; eassumption ..].
  destruct Hname as [Hfn Hq2].
  pose proof (field_confirmed_nonempty _ _ _ Hfn) as Hne.
  apply nonempty_true in Hne. rewrite Hne.
  change (negb true) with false. cbv beta iota.
  set (w3 := update_voice_feedback "Listening for notes..." false
               (next_registration_step name
                  (update_voice_feedback name true w2))).
  assert (Hs3 : silent w2 w3).
  { eapply silent_trans; [apply silent_update_voice_feedback|].
    eapply silent_trans; [apply silent_next_registration_step|].
    apply silent_update_voice_feedback. }
  pose proof (said_silent _ _ Hs3) as Hm3. destruct Hs3 as [Hq3 _].
  pose proof (prompt_for_notes_spec w3) as Hnotes. rewrite Hm3 in Hnotes.
  assert (Hq03 : quiet w w3).
  { eapply quiet_trans; [eassumption|]. eapply quiet_trans; eassumption. }
  destruct (prompt_for_notes show_input_confirmation w3) as [notes w4|w4|w4];
    [|destruct Hnotes as [Hno Hq4]; cbv beta iota;
      (split; [|eapply quiet_trans; eassumption]);
      intros n o c (l1 & l2 & _ & H1 & H2 & _);
      destruct (field_confirmed_det _ _ _ Hfn _ _ H1) as [<- <-];
      eapply Hno; eassumption ..].
  destruct Hnotes as [Hfo Hq4].
  pose proof (field_confirmed_nonempty _ _ _ Hfo) as Hno.
  rewrite !(str_or_nonempty notes) by assumption.
  set (w5 := update_voice_feedback "Listening for category..." false
               (next_registration_step notes
                  (update_voice_feedback notes true w4))).
  assert (Hs5 : silent w4 w5).
  { eapply silent_trans; [apply silent_update_voice_feedback|].
    eapply silent_trans; [apply silent_next_registration_step|].
    apply silent_update_voice_feedback. }
  pose proof (said_silent _ _ Hs5) as Hm5. destruct Hs5 as [Hq5 _].
  pose proof (prompt_for_category_spec w5) as Hcat. rewrite Hm5 in Hcat.
  assert (Hq05 : quiet w w5).
  { eapply quiet_trans; [eassumption|]. eapply quiet_trans; eassumption. }
  destruct (prompt_for_category show_input_confirmation w5) as [category w6|w6|w6];
    [|destruct Hcat as [Hnc Hq6]; cbv beta iota;
      (split; [|eapply quiet_trans; eassumption]);
      intros n o c (l1 & l2 & l3 & H1 & H2 & H3);
      destruct (field_confirmed_det _ _ _ Hfn _ _ H1) as [<- <-];
      destruct (field_confirmed_det _ _ _ Hfo _ _ H2) as [<- <-];
      eapply Hnc; eassumption ..].
  destruct Hcat as [Hfc Hq6].
  pose proof (field_confirmed_nonempty _ _ _ Hfc) as Hnc.
  rewrite !(str_or_nonempty category) by assumption.
  set (w7 := next_registration_step category
               (update_voice_feedback category true
                  (render (set_confirmation_mode false w6)))).
  assert (Hs7 : silent w6 w7).
  { eapply silent_trans; [apply silent_set_confirmation_mode|].
    eapply silent_trans; [apply silent_render|].
    eapply silent_trans; [apply silent_update_voice_feedback|].
    apply silent_next_registration_step. }
  destruct Hs7 as [Hq7 _].
  assert (Hq07 : quiet w w7).
  { eapply quiet_trans; [eassumption|]. eapply quiet_trans; eassumption. }
  clearbody w1 w3 w5 w7.
  unfold get_id. cbv beta iota. exists name, notes, category, w7.
  split; [exists (said w2), (said w4), (said w6); auto|].
  split; [assumption|].
  destruct Hq07 as (Hsql & Hface & _ & Hins & _).
  unfold store_voice_notes. rewrite Hins.
  destruct (insert_raises w); simpl.
  - split; [assumption|]. split; [now rewrite Hface|].
    rewrite <- !app_assoc. reflexivity.
  - split; [now rewrite Hsql|]. split; [now rewrite Hface|].
    rewrite <- !app_assoc. reflexivity.
Qed.

Lemma silent_reset_flags w : silent w (reset_flags w).
Proof. now apply silent_same. Qed.

Lemma silent_cleanup w :
  silent w (update_status None (Some false) None (locked reset_flags w)).
Proof.
  eapply silent_trans; [apply silent_locked, silent_reset_flags|].
  apply silent_update_status.
Qed.

(** [register_new_face] on a face with its box and encoding: either all
    three fields were confirmed, the embedding is in the face store and the
    row is in the table unless the INSERT raised, or they were not and
    nothing was written. *)
Lemma register_new_face_outcome face_data w :
  face_ok face_data ->
  let w' := world_of (register_new_face face_data w) in
  (exists name notes category,
     three_confirmed (said w) name notes category
     /\ sql_db w'
        = (if insert_raises w then sql_db w
           else Database.store_notes name notes category (sql_db w))
     /\ face_db w'
        = FaceDatabase.add_face (default VNone (face_data !! "encoding"))
            (Database.get_id name (sql_db w')) (face_db w))
  \/ ((forall name notes category,
         ~ three_confirmed (said w) name notes category)
      /\ quiet w w').
Proof.
  intros (Ht & Hb & He). unfold register_new_face.
  rewrite Ht, Hb, He. simpl. unfold try_except_finally.
  pose proof (registration_body_outcome face_data w) as H.
  destruct (registration_body face_data w) as [[] w1|w1|w1]; simpl.
  - left. destruct H as (name & notes & category & wd & H3 & _ & Hs & Hf & _).
    exists name, notes, category. split; [assumption|]. split; assumption.
  - right. destruct H as [Hno Hq]. split; [assumption|].
    eapply quiet_trans; [eassumption|].
    eapply quiet_trans; [apply silent_show_notification|].
    apply silent_cleanup.
  - right. assumption.
Qed.



End RegistrationFacts.

(** ** Registration: main results *)

Section RegistrationResults.
Import Py Machine VoiceRecognition System.




(** C2. The code does not take an empty transcript as the value of the
    notes or the category field. The recogniser has no result for the
    first capture (an empty transcript), then hears "yes", "tall", "yes":
    the empty capture is never shown for confirmation, the prompt captures
    again, and what [prompt_for_notes] (and likewise
    [prompt_for_category]) returns is "yes", not the empty string (not
    "Other"). In general neither prompt ever returns with an empty
    confirmed transcript. *)
Theorem empty_transcript_is_recaptured :
  let w := set_mic Scenario.silence_then_yes Scenario.fresh in
  said w = [Heard (Some ""); Heard (Some "yes");
            Heard (Some "tall"); Heard (Some "yes")]
  /\ (exists w', prompt_for_notes show_input_confirmation w = Ok "yes" w'
              /\ mic w' = []
              /\ ~ In (ShowInputConfirmation "notes" "") (trace w'))
  /\ (exists w', prompt_for_category show_input_confirmation w = Ok "yes" w'
                 /\ mic w' = []
                 /\ ~ In (ShowInputConfirmation "category" "") (trace w'))
  /\ (forall w0,
        match prompt_for_notes show_input_confirmation w0 with
        | Ok notes w' => notes <> "" /\ field_confirmed (said w0) notes (said w')
        | Raised _ | Starved _ => True
        end)
  /\ (forall w0,
        match prompt_for_category show_input_confirmation w0 with
        | Ok category w' =>
          category <> "" /\ field_confirmed (said w0) category (said w')
        | Raised _ | Starved _ => True
        end).
Proof.
  intros w. split; [vm_compute; reflexivity|]. split; [|split; [|split]].
  - eexists. split; [vm_compute; reflexivity|]. split; [reflexivity|].
    intros Hin. vm_compute in Hin.
    repeat (destruct Hin as [Hin|Hin]; [discriminate Hin|]). exact Hin.
  - eexists. split; [vm_compute; reflexivity|]. split; [reflexivity|].
    intros Hin. vm_compute in Hin.
    repeat (destruct Hin as [Hin|Hin]; [discriminate Hin|]). exact Hin.
  - intros w0. pose proof (prompt_for_notes_spec w0) as H.
    destruct (prompt_for_notes show_input_confirmation w0); [|exact I..].
    destruct H as [Hf _]. split; [|assumption].
    eapply field_confirmed_nonempty; eassumption.
  - intros w0. pose proof (prompt_for_category_spec w0) as H.
    destruct (prompt_for_category show_input_confirmation w0); [|exact I..].
    destruct H as [Hf _]. split; [|assumption].
    eapply field_confirmed_nonempty; eassumption.
Qed.



End RegistrationResults.

(** ** The two threads: main results *)

Section CoordinationResults.
Import Py Machine VoiceRecognition System.

(** What [register_new_face] leaves in the flags when it returns from its
    [try] statement: the [finally] block has the last word. *)
Lemma register_new_face_resets face_data w w' :
  face_ok face_data ->
  register_new_face face_data w = Ok tt w' ->
  registration_mode w' = false /\ listening_for_wake_word w' = true.
Proof.
  intros (Ht & Hb & He). unfold register_new_face.
  rewrite Ht, Hb, He. simpl. unfold try_except_finally.
  destruct (registration_body face_data w) as [[] w1|w1|w1];
    intros H; inversion H; subst; split; reflexivity.
Qed.

(** A listener turn that takes the system into registration mode switches
    listening off in the same lock block. *)
Lemma listener_turn_pairs_flags e reads w :
  registration_mode w = false ->
  registration_mode (voice_listener_iteration e reads w) = true ->
  listening_for_wake_word (voice_listener_iteration e reads w) = false.
Proof.
  unfold voice_listener_iteration. intros Hreg. simpl. rewrite Hreg. simpl.
  destruct (negb (Bool.eqb _ _)); simpl; rewrite ?Hreg; simpl;
    destruct (listening_for_wake_word w && true
              && list_truthy (unknown_faces w)) eqn:Ec; simpl;
    try congruence;
    destruct (VoiceActivation.listen_for_wake_word e reads _ _)
      as [[[|] va] d]; simpl; rewrite ?Hreg; simpl;
    try congruence;
    destruct (list_truthy (unknown_faces w)); simpl; congruence.
Qed.

(** The request check that takes the system out of registration mode
    switches listening back on in the same lock block. *)
Lemma check_request_pairs_flags w :
  registration_mode w = true ->
  registration_mode (snd (check_registration_request w)) = false ->
  listening_for_wake_word (snd (check_registration_request w)) = true.
Proof.
  unfold check_registration_request. simpl.
  destruct (start_registration_requested w); simpl;
    destruct (list_truthy (unknown_faces w)); simpl; congruence.
Qed.

(** C5. The flags do not keep "registration mode implies not listening" in
    every reachable state. The schedule [Scenario.second_wake_word] is an
    interleaving of the two threads: the dialog ends and its [finally]
    block clears [registration_mode] and sets [listening_for_wake_word];
    the listener takes the lock, hears the wake word and sets
    [registration_mode] with listening off; then the main loop's own
    [self.listening_for_wake_word = True], which follows the return of
    [register_new_face], switches listening on and leaves
    [registration_mode] set. *)
Theorem registration_mode_while_listening :
  exists s,
    steps Scenario.second_wake_word
      {| now := set_mic Scenario.alice_tall_friend Scenario.fresh;
         pc := LoopTop |} = Some s
    /\ reachable s
    /\ registration_mode (now s) = true
    /\ listening_for_wake_word (now s) = true
    /\ start_registration_requested (now s) = true.
Proof.
  eexists. split; [vm_compute; reflexivity|].
  split; [|repeat split].
  exists Database.create_table, FaceDatabase.empty, Scenario.empty_disk,
         Scenario.alice_tall_friend, Scenario.second_wake_word.
  vm_compute. reflexivity.
Qed.

(** C6. When the main loop comes to the request check with
    [start_registration_requested] set and no unknown face in the list, it
    clears the request, leaves registration mode and switches listening
    on; the turn then only renders and sleeps: nothing is asked of the
    microphone, no registration is started on the display, and both stores
    are as they were. *)
Theorem abandoned_request_resets (w : world) :
  start_registration_requested w = true ->
  unknown_faces w = [] ->
  exists w',
    serve_registration_request w = Ok tt w'
    /\ start_registration_requested w' = false
    /\ registration_mode w' = false
    /\ listening_for_wake_word w' = true
    /\ sql_db w' = sql_db w
    /\ face_db w' = face_db w
    /\ mic w' = mic w
    /\ events_since w w' = [Acquire; Release; Render; Sleep].
Proof.
  intros Hreq Hnone. unfold serve_registration_request, check_registration_request.
  simpl. rewrite Hreq, Hnone. simpl.
  eexists. split; [reflexivity|]. repeat split.
  unfold events_since. simpl. rewrite <- !app_assoc. simpl.
  apply drop_app_length.
Qed.

Lemma abandoned_request_resets_witness :
  start_registration_requested Scenario.requested = true
  /\ unknown_faces Scenario.requested = []
  /\ exists w',
       serve_registration_request Scenario.requested = Ok tt w'
       /\ registration_mode w' = false
       /\ listening_for_wake_word w' = true.
Proof.
  split; [reflexivity|]. split; [reflexivity|].
  destruct (abandoned_request_resets Scenario.requested eq_refl eq_refl)
    as (w' & Hrun & _ & Hreg & Hlisten & _).
  exists w'. auto.
Defined.

(** The same over a whole turn of the main loop: the request is set and the
    recognition results of the turn hold no unknown face. *)
Lemma abandoned_request_whole_turn (recognition_results : list face) (w : world) :
  start_registration_requested w = true ->
  List.filter is_unknown recognition_results = [] ->
  exists w',
    main_loop_turn (Some recognition_results) false w = Ok true w'
    /\ start_registration_requested w' = false
    /\ registration_mode w' = false
    /\ listening_for_wake_word w' = true
    /\ sql_db w' = sql_db w /\ face_db w' = face_db w /\ mic w' = mic w
    /\ Forall (fun ev => ev <> GetVoiceInput /\ is_store_call ev = false)
         (events_since w w').
Proof.
  intros Hreq Hnone.
  unfold main_loop_turn, bind, lift, serve_registration_request,
    check_registration_request, refresh_unknown_faces.
  simpl. rewrite Hreq, Hnone. simpl.
  eexists. split; [reflexivity|]. repeat split.
  unfold events_since. simpl. rewrite <- !app_assoc. simpl.
  rewrite drop_app_length.
  repeat (constructor; [split; [discriminate|reflexivity]|]). constructor.
Qed.

(** The main thread, for comparison, makes no call at all while it holds
    the lock: a whole turn with a registration in it. *)
Example main_turn_calls_outside_lock :
  let w := set_mic Scenario.alice_tall_friend
             (set_unknown_faces [Scenario.stranger] Scenario.requested) in
  calls_under_lock false
    (events_since w
       (world_of (main_loop_turn (Some [Scenario.stranger]) false w))) = [].
Proof. vm_compute. reflexivity. Qed.

(** C7. Whenever the listener thread listens, it does so with the lock
    held: between taking the lock and releasing it, one turn of
    [voice_listener_thread] publishes the listening status to the display
    (when it differs from what the display shows) and makes the blocking
    call to the wake-word detector. *)
Theorem listener_blocks_under_lock (e : VoiceActivation.env)
    (reads : list (option VoiceActivation.frame)) (w : world) :
  listening_for_wake_word w = true ->
  registration_mode w = false ->
  unknown_faces w <> [] ->
  calls_under_lock false (events_since w (voice_listener_iteration e reads w))
  = (if wake_word_listening (ar_display w) then []
     else [UpdateStatus None None (Some true)]) ++ [ListenForWakeWord]
  /\ existsb blocking
       (calls_under_lock false
          (events_since w (voice_listener_iteration e reads w))) = true.
Proof.
  intros Hl Hr Hu.
  assert (Hcalls :
    calls_under_lock false (events_since w (voice_listener_iteration e reads w))
    = (if wake_word_listening (ar_display w) then []
       else [UpdateStatus None None (Some true)]) ++ [ListenForWakeWord]);
    [|split; [exact Hcalls|rewrite Hcalls;
              destruct (wake_word_listening (ar_display w)); reflexivity]].
  assert (Ht : list_truthy (unknown_faces w) = true)
    by (destruct (unknown_faces w); [congruence|reflexivity]).
  unfold voice_listener_iteration. simpl. rewrite Hl, Hr, Ht. simpl.
  destruct (wake_word_listening (ar_display w)) eqn:Ew; simpl;
    rewrite ?Hl, ?Hr, ?Ht; simpl;
    destruct (VoiceActivation.listen_for_wake_word e reads _ _)
      as [[[|] va] d]; simpl; rewrite ?Hr, ?Ht; simpl;
    unfold events_since; simpl; rewrite <- !app_assoc; simpl;
    rewrite drop_app_length; reflexivity.
Qed.

Lemma listener_blocks_under_lock_witness :
  listening_for_wake_word Scenario.stranger_in_view = true
  /\ registration_mode Scenario.stranger_in_view = false
  /\ unknown_faces Scenario.stranger_in_view <> []
  /\ calls_under_lock false
       (events_since Scenario.stranger_in_view
          (voice_listener_iteration (Scenario.hears "hello")
             [Some Scenario.speech_frame; Some Scenario.silence_frame]
             Scenario.stranger_in_view))
     = [UpdateStatus None None (Some true); ListenForWakeWord].
Proof.
  split; [reflexivity|]. split; [reflexivity|].
  assert (Hu : unknown_faces Scenario.stranger_in_view <> []) by discriminate.
  split; [exact Hu|].
  exact (proj1 (listener_blocks_under_lock (Scenario.hears "hello")
                  [Some Scenario.speech_frame; Some Scenario.silence_frame]
                  Scenario.stranger_in_view eq_refl eq_refl Hu)).
Defined.

End CoordinationResults.

(* ===================================================================== *)
(** * Further properties of the code *)
(* ===================================================================== *)

(** ** database.py *)

Section DatabaseMore.
Import Py Database.

Lemma filter_none_app {A} (p : A -> bool) (l : list A) (x : A) :
  List.filter p (l ++ [x]) = List.filter p l ++ (if p x then [x] else []).
Proof.
  induction l as [|y l IH]; simpl.
  - destruct (p x); reflexivity.
  - rewrite IH. destruct (p y); reflexivity.
Qed.

Lemma filter_all_false {A} (p : A -> bool) (l : list A) :
  (forall x, In x l -> p x = false) -> List.filter p l = [].
Proof.
  induction l as [|y l IH]; simpl; intros H; [reflexivity|].
  rewrite (H y) by now left. apply IH. intros x Hx. apply H. now right.
Qed.

Lemma wf_one_row : wf Scenario.one_row.
Proof. apply wf_store_notes, wf_create_table. Qed.

(** Insert, then look the name up: for a name the table does not have yet,
    [get_id] gives the tuple of the id the row has just been given. *)
Theorem get_id_after_store_new_name (name notes category : string) (db : t) :
  (forall r, In r (rows db) -> row_name r <> name) ->
  get_id name (store_notes name notes category db) = VTuple [VInt (seq db + 1)].
Proof.
  intros Hnew. unfold get_id, select_id, store_notes. simpl.
  rewrite filter_none_app. simpl. rewrite String.eqb_refl.
  rewrite filter_all_false; [reflexivity|].
  intros r Hr. apply String.eqb_neq. now apply Hnew.
Qed.

Lemma get_id_after_store_new_name_witness :
  (forall r, In r (rows Scenario.one_row) -> row_name r <> "Bob")
  /\ get_id "Bob" (store_notes "Bob" "" "Other" Scenario.one_row)
     = VTuple [VInt 2].
Proof.
  assert (H : forall r, In r (rows Scenario.one_row) -> row_name r <> "Bob").
  { intros r [<-|[]]. discriminate. }
  split; [exact H|].
  exact (get_id_after_store_new_name "Bob" "" "Other" Scenario.one_row H).
Defined.

Lemma known_name_first_hit name db r :
  In r (rows db) -> row_name r = name ->
  exists r0 rest,
    List.filter (fun r => String.eqb (row_name r) name) (rows db) = r0 :: rest
    /\ In r0 (rows db)
    /\ get_id name db = VTuple [VInt (row_id r0)].
Proof.
  intros Hin Hname.
  destruct (get_id_cases name db) as [[Hnone _]|(r0 & rest & Hhit & Hid)].
  - exfalso. pose proof (no_hit _ _ Hnone r Hin) as H. simpl in H.
    rewrite Hname, String.eqb_refl in H. discriminate.
  - exists r0, rest. split; [assumption|]. split; [|assumption].
    apply (proj1 (filter_In (fun r => String.eqb (row_name r) name) r0 (rows db))).
    rewrite Hhit. now left.
Qed.

(** Insert under a name the table already has: [get_id] still gives the id
    of the earlier row, never the id of the row just inserted. *)
Theorem get_id_after_store_known_name (name notes category : string) (db : t)
    (r : row) :
  wf db -> In r (rows db) -> row_name r = name ->
  exists i, i <= seq db
    /\ get_id name db = VTuple [VInt i]
    /\ get_id name (store_notes name notes category db) = VTuple [VInt i].
Proof.
  intros (_ & _ & Hseq) Hin Hname.
  destruct (known_name_first_hit name db r Hin Hname)
    as (r0 & rest & Hhit & Hin0 & Hid).
  exists (row_id r0). split; [|split; [assumption|]].
  - exact (proj1 (List.Forall_forall _ _) Hseq r0 Hin0).
  - unfold get_id, select_id, store_notes. simpl.
    rewrite filter_none_app, Hhit. reflexivity.
Qed.

Lemma get_id_after_store_known_name_witness :
  exists i, i <= seq Scenario.one_row
    /\ get_id "Alice" Scenario.one_row = VTuple [VInt i]
    /\ get_id "Alice" (store_notes "Alice" "" "Other" Scenario.one_row)
       = VTuple [VInt i].
Proof.
  refine (get_id_after_store_known_name "Alice" "" "Other" Scenario.one_row
            (Row 1 "Alice" "tall" "friend") _ _ _).
  - exact wf_one_row.
  - now left.
  - reflexivity.
Defined.

(** Insert, then read the row back by the id it was given: [get_notes]
    gives exactly the three values inserted, and every other id reads as
    before. *)
Theorem get_notes_after_store (name notes category : string) (db : t) :
  wf db ->
  get_notes (seq db + 1) (store_notes name notes category db)
    = VTuple [VStr name; VStr notes; VStr category]
  /\ forall j, j <> seq db + 1 ->
       get_notes j (store_notes name notes category db) = get_notes j db.
Proof.
  intros (_ & _ & Hseq). unfold get_notes, select_notes, store_notes. simpl.
  split.
  - rewrite filter_none_app. simpl. rewrite Z.eqb_refl.
    rewrite filter_all_false; [reflexivity|].
    intros r Hr. apply Z.eqb_neq.
    pose proof (proj1 (List.Forall_forall _ _) Hseq r Hr) as Hle. simpl in Hle. lia.
  - intros j Hj. rewrite filter_none_app. simpl.
    destruct (Z.eqb_spec (seq db + 1) j) as [Heq|_]; [congruence|].
    now rewrite app_nil_r.
Qed.

Lemma get_notes_after_store_witness :
  get_notes (seq Scenario.one_row + 1)
            (store_notes "Bob" "tall" "Friend" Scenario.one_row)
    = VTuple [VStr "Bob"; VStr "tall"; VStr "Friend"]
  /\ forall j, j <> seq Scenario.one_row + 1 ->
       get_notes j (store_notes "Bob" "tall" "Friend" Scenario.one_row)
       = get_notes j Scenario.one_row.
Proof.
  apply (get_notes_after_store "Bob" "tall" "Friend" Scenario.one_row).
  exact wf_one_row.
Defined.

Lemma filter_update_same id name notes category (l : list row) :
  List.filter (fun r => Z.eqb (row_id r) id)
              (map (update_row id name notes category) l)
  = map (fun r => Row (row_id r) name notes category)
        (List.filter (fun r => Z.eqb (row_id r) id) l).
Proof.
  induction l as [|x l IH]; simpl; [reflexivity|].
  rewrite update_row_id. destruct (Z.eqb (row_id x) id) eqn:E.
  - simpl. rewrite IH. unfold update_row. now rewrite E.
  - exact IH.
Qed.

Lemma filter_update_other id j name notes category (l : list row) :
  j <> id ->
  List.filter (fun r => Z.eqb (row_id r) j)
              (map (update_row id name notes category) l)
  = List.filter (fun r => Z.eqb (row_id r) j) l.
Proof.
  intros Hj. induction l as [|x l IH]; simpl; [reflexivity|].
  rewrite update_row_id. destruct (Z.eqb_spec (row_id x) j) as [Hx|Hx].
  - rewrite IH. unfold update_row.
    destruct (Z.eqb_spec (row_id x) id); [congruence|reflexivity].
  - exact IH.
Qed.

(** Edit, then read back: the edited id reads as the three new values when
    the table has a row of that id and as [None] when it has none (the
    edit creates nothing); every other id reads as before. *)
Theorem get_notes_after_edit (id : Z) (name notes category : string) (db : t) :
  get_notes id (fst (edit id name notes category db))
    = (if existsb (fun r => Z.eqb (row_id r) id) (rows db)
       then VTuple [VStr name; VStr notes; VStr category]
       else VNone)
  /\ forall j, j <> id ->
       get_notes j (fst (edit id name notes category db)) = get_notes j db.
Proof.
  unfold get_notes, select_notes, edit. simpl. split.
  - rewrite filter_update_same.
    induction (rows db) as [|x l IH]; simpl; [reflexivity|].
    destruct (Z.eqb (row_id x) id); [reflexivity|exact IH].
  - intros j Hj. now rewrite filter_update_other.
Qed.

(** Two edits of the same id: the later one wins, whatever the earlier one
    wrote. *)
Theorem edit_overwrites_edit (id : Z) (n1 o1 c1 n2 o2 c2 : string) (db : t) :
  fst (edit id n2 o2 c2 (fst (edit id n1 o1 c1 db))) = fst (edit id n2 o2 c2 db).
Proof.
  unfold edit. simpl. f_equal. rewrite map_map. apply map_ext.
  intros r. unfold update_row at 2. destruct (Z.eqb (row_id r) id) eqn:E.
  - unfold update_row. simpl. now rewrite E.
  - reflexivity.
Qed.

Lemma first_ids_snoc n : first_ids (S n) = first_ids n ++ [Z.of_nat (S n)].
Proof. unfold first_ids. rewrite seq_S, map_app. reflexivity. Qed.

Lemma execute_all_ids sts : forall db n,
  map row_id (rows db) = first_ids n -> seq db = Z.of_nat n ->
  let db' := execute_all sts db in
  let n' := (n + length (List.filter is_insert sts))%nat in
  map row_id (rows db') = first_ids n' /\ seq db' = Z.of_nat n'.
Proof.
  induction sts as [|st sts IH]; intros db n Hids Hseq; simpl.
  - rewrite Nat.add_0_r. now split.
  - destruct st as [name notes category|id name notes category]; simpl.
    + replace (n + S (length (List.filter is_insert sts)))%nat
        with (S n + length (List.filter is_insert sts))%nat by lia.
      apply IH; simpl.
      * rewrite map_app, Hids, first_ids_snoc. simpl. do 3 f_equal. lia.
      * lia.
    + apply IH; simpl; [|assumption].
      rewrite map_map. rewrite <- Hids. apply map_ext.
      intros r. apply update_row_id.
Qed.

Lemma wf_execute_all sts : forall db, wf db -> wf (execute_all sts db).
Proof.
  induction sts as [|st sts IH]; intros db Hwf; simpl; [assumption|].
  apply IH. destruct st; simpl; [now apply wf_store_notes|now apply wf_edit].
Qed.

(** Whatever inserts and edits are run on a fresh table, in whatever order:
    the rows carry the ids 1, 2, ..., n in scan order, n the number of
    inserts so far; edits neither add, drop nor renumber a row. *)
Theorem ids_count_the_inserts (sts : list statement) :
  let db := execute_all sts create_table in
  let n := length (List.filter is_insert sts) in
  map row_id (rows db) = first_ids n /\ seq db = Z.of_nat n /\ wf db.
Proof.
  simpl. pose proof (execute_all_ids sts create_table 0 eq_refl eq_refl) as H.
  simpl in H. destruct H as [H1 H2]. split; [assumption|]. split; [assumption|].
  apply wf_execute_all, wf_create_table.
Qed.

End DatabaseMore.

(** ** voice_activation.py *)

Section DetectorMore.
Import Py VoiceActivation.

Variable e : env.

Lemma segment_triggers_unwritable st seg d :
  writable d = false -> segment_triggers e st seg d = (false, d).
Proof.
  intros Hw. unfold segment_triggers, save_audio.
  destruct seg; [reflexivity|]. now rewrite Hw.
Qed.

Lemma listen_loop_unwritable reads : forall st d,
  writable d = false ->
  fst (fst (listen_loop e reads st d)) = false /\ snd (listen_loop e reads st d) = d.
Proof.
  induction reads as [|[data|] reads IH]; intros st d Hw; simpl.
  - unfold final_flush.
    destruct (speech_detected st && Nat.ltb 0 (length (audio_buffer st)));
      [|now split].
    rewrite (segment_triggers_unwritable _ _ _ Hw). now split.
  - destruct (process_audio_chunk e data st) as [chunks st1].
    destruct (chunks_truthy chunks); [|now apply IH].
    rewrite (segment_triggers_unwritable _ _ _ Hw). now apply IH.
  - now apply IH.
Qed.

(** When the recordings directory cannot be written, the detector reports
    no wake word, whatever is said into the microphone, and leaves every
    file as it was. *)
Theorem unwritable_disk_never_detects (reads : list (option frame)) (st : t)
    (d : disk) :
  writable d = false ->
  fst (fst (listen_for_wake_word e reads st d)) = false
  /\ snd (listen_for_wake_word e reads st d) = d.
Proof.
  intros Hw. unfold listen_for_wake_word.
  destruct (if stream st then Some st else initialize_audio_stream e st);
    [|now split].
  now apply listen_loop_unwritable.
Qed.

Lemma segment_triggers_no_transcript st seg d :
  transcript e d seg = None -> fst (segment_triggers e st seg d) = false.
Proof. intros H. now rewrite segment_triggers_transcript, H. Qed.

Lemma listen_loop_no_transcript reads : forall st d,
  (forall seg, transcript e d seg = None) ->
  fst (fst (listen_loop e reads st d)) = false.
Proof.
  induction reads as [|[data|] reads IH]; intros st d Hnone; simpl.
  - unfold final_flush.
    destruct (speech_detected st && Nat.ltb 0 (length (audio_buffer st)));
      [|reflexivity].
    pose proof (segment_triggers_no_transcript st (audio_buffer st) d (Hnone _)) as H.
    destruct (segment_triggers e st (audio_buffer st) d) as [hit d1].
    simpl in H. now subst hit.
  - destruct (process_audio_chunk e data st) as [chunks st1].
    destruct (chunks_truthy chunks); [|now apply IH].
    pose proof (segment_triggers_no_transcript st1 (default [] chunks) d (Hnone _)) as H.
    pose proof (segment_triggers_transcript e st1 (default [] chunks) d) as Hd.
    destruct (segment_triggers e st1 (default [] chunks) d) as [hit d1].
    simpl in H. subst hit. apply IH. intros seg.
    rewrite (transcript_same_writable e d d1); [apply Hnone|].
    injection Hd as _ ->. apply save_audio_writable.
  - now apply IH.
Qed.

(** A recogniser that fails on every request, or has no result for any,
    never makes the detector report a wake word: its errors are taken for
    silence. *)
Theorem failing_recogniser_never_detects (reads : list (option frame))
    (st : t) (d : disk) :
  (forall content, recognize e content = None \/ recognize e content = Some []) ->
  fst (fst (listen_for_wake_word e reads st d)) = false.
Proof.
  intros Hrec. unfold listen_for_wake_word.
  destruct (if stream st then Some st else initialize_audio_stream e st);
    [|reflexivity].
  apply listen_loop_no_transcript. intros seg. rewrite transcript_cases.
  destruct seg; [reflexivity|]. destruct (writable d); [|reflexivity].
  destruct (Hrec (String.concat "" (f :: seg))) as [-> | ->]; reflexivity.
Qed.

Lemma reset_state_fields st :
  wake_word (reset_state st) = wake_word st
  /\ chunk_size (reset_state st) = chunk_size st
  /\ stream (reset_state st) = false
  /\ speech_detected (reset_state st) = false
  /\ audio_buffer (reset_state st) = [].
Proof. now repeat split. Qed.

Lemma listen_loop_state reads : forall st d,
  let '(detected, st', _) := listen_loop e reads st d in
  wake_word st' = wake_word st /\ chunk_size st' = chunk_size st
  /\ (detected = true ->
      stream st' = false /\ speech_detected st' = false /\ audio_buffer st' = [])
  /\ (detected = false -> stream st' = stream st).
Proof.
  induction reads as [|[data|] reads IH]; intros st d; simpl.
  - unfold final_flush.
    destruct (speech_detected st && Nat.ltb 0 (length (audio_buffer st))).
    + destruct (segment_triggers e st (audio_buffer st) d) as [[] d1];
        repeat split; intros; congruence.
    + repeat split; intros; congruence.
  - pose proof (process_keeps_config e data st) as (Hc & Hw & Hs).
    destruct (process_audio_chunk e data st) as [chunks st1]. simpl in Hc, Hw, Hs.
    destruct (chunks_truthy chunks).
    + destruct (segment_triggers e st1 (default [] chunks) d) as [[] d1].
      * repeat split; simpl; intros; congruence.
      * specialize (IH (set_buffer [] st1) d1).
        destruct (listen_loop e reads (set_buffer [] st1) d1) as [[det st'] d'].
        simpl in IH. destruct IH as (H1 & H2 & H3 & H4).
        repeat split; try congruence; try (now apply H3).
        intros Hd. rewrite (H4 Hd). assumption.
    + specialize (IH st1 d).
      destruct (listen_loop e reads st1 d) as [[det st'] d'].
      destruct IH as (H1 & H2 & H3 & H4).
      repeat split; try congruence; try (now apply H3).
      intros Hd. rewrite (H4 Hd). assumption.
  - apply IH.
Qed.

(** What a call leaves in the detector object: the wake word and the frame
    size never change; a detection drops the stream and empties the buffer
    (so the next call opens the device again); without a detection the
    stream is open afterwards exactly when it was open before or could be
    opened. *)
Theorem listen_for_wake_word_state (reads : list (option frame)) (st : t)
    (d : disk) :
  let '(detected, st', _) := listen_for_wake_word e reads st d in
  wake_word st' = wake_word st /\ chunk_size st' = chunk_size st
  /\ (detected = true ->
      stream st' = false /\ speech_detected st' = false /\ audio_buffer st' = [])
  /\ (detected = false -> stream st' = stream st || device_opens e).
Proof.
  unfold listen_for_wake_word, initialize_audio_stream.
  destruct (stream st) eqn:Hs.
  - pose proof (listen_loop_state reads
                  (set_speech_detected false (set_buffer [] st)) d) as H.
    destruct (listen_loop e reads (set_speech_detected false (set_buffer [] st)) d)
      as [[det st'] d'].
    simpl in H. destruct H as (H1 & H2 & H3 & H4).
    repeat split; try assumption; try (now apply H3).
    intros Hd. rewrite (H4 Hd). assumption.
  - destruct (device_opens e).
    + pose proof (listen_loop_state reads
                    (set_speech_detected false (set_buffer [] (set_stream true st))) d)
        as H.
      destruct (listen_loop e reads
                  (set_speech_detected false (set_buffer [] (set_stream true st))) d)
        as [[det st'] d'].
      simpl in H. destruct H as (H1 & H2 & H3 & H4).
      repeat split; try assumption; try (now apply H3).
    + repeat split; intros; try reflexivity; try discriminate; assumption.
Qed.

Lemma process_ill_sized data st :
  well_sized st data = false -> process_audio_chunk e data st = (None, st).
Proof. intros H. unfold process_audio_chunk. now rewrite H. Qed.

Lemma listen_loop_classified reads : forall st d,
  listen_loop e reads st d = listen_loop e (map Some (classified st reads)) st d.
Proof.
  induction reads as [|[data|] reads IH]; intros st d.
  - reflexivity.
  - rewrite classified_cons_some. destruct (well_sized st data) eqn:Hsz.
    + simpl. pose proof (process_keeps_config e data st) as (Hc & _ & _).
      destruct (process_audio_chunk e data st) as [chunks st1]. simpl in Hc.
      destruct (chunks_truthy chunks).
      * destruct (segment_triggers e st1 (default [] chunks) d) as [[] d1];
          [reflexivity|].
        rewrite IH. f_equal. f_equal. apply classified_same_size. exact Hc.
      * rewrite IH. f_equal. f_equal. apply classified_same_size. exact Hc.
    + simpl. rewrite (process_ill_sized _ _ Hsz). simpl. apply IH.
  - simpl. apply IH.
Qed.

(** Reads that raise and reads of the wrong length leave no mark: the
    detector returns what it returns on the remaining frames alone: same
    answer, same state, same files. *)
Theorem bad_reads_are_skipped (reads : list (option frame)) (st : t) (d : disk) :
  listen_for_wake_word e reads st d
  = listen_for_wake_word e (map Some (classified st reads)) st d.
Proof.
  unfold listen_for_wake_word, initialize_audio_stream.
  destruct (stream st).
  - rewrite listen_loop_classified. reflexivity.
  - destruct (device_opens e); [|reflexivity].
    rewrite listen_loop_classified. reflexivity.
Qed.

End DetectorMore.

Lemma unwritable_disk_never_detects_witness :
  VoiceActivation.writable Scenario.read_only_disk = false
  /\ fst (fst (VoiceActivation.listen_for_wake_word (Scenario.hears "register")
                 [Some Scenario.speech_frame; Some Scenario.silence_frame]
                 Scenario.detector Scenario.read_only_disk)) = false.
Proof.
  split; [reflexivity|].
  exact (proj1 (unwritable_disk_never_detects (Scenario.hears "register")
                  [Some Scenario.speech_frame; Some Scenario.silence_frame]
                  Scenario.detector Scenario.read_only_disk eq_refl)).
Defined.

Lemma failing_recogniser_never_detects_witness :
  fst (fst (VoiceActivation.listen_for_wake_word Scenario.offline
              [Some Scenario.speech_frame; Some Scenario.silence_frame]
              Scenario.detector Scenario.empty_disk)) = false.
Proof.
  apply (failing_recogniser_never_detects Scenario.offline).
  intros content. left. reflexivity.
Defined.

Section DeviceChoice.
Import Py VoiceActivation.

Lemma first_index_spec (p : string -> bool) names : forall i,
  match first_index p i names with
  | Some k =>
    (i <= k)%nat
    /\ (exists name, names !! (k - i)%nat = Some name /\ p name = true)
    /\ forall j name, (j < k - i)%nat -> names !! j = Some name -> p name = false
  | None => forall name, In name names -> p name = false
  end.
Proof.
  induction names as [|x names IH]; intros i; simpl.
  - tauto.
  - destruct (p x) eqn:Hp.
    + split; [lia|]. rewrite Nat.sub_diag. split; [now exists x|].
      intros j name Hj. lia.
    + specialize (IH (S i)). destruct (first_index p (S i) names) as [k|].
      * destruct IH as (Hle & (name & Hname & Hpn) & Hbefore).
        split; [lia|]. split.
        -- exists name. replace (k - i)%nat with (S (k - S i)) by lia.
           now split.
        -- intros [|j] name' Hj Hlook; simpl in Hlook.
           ++ congruence.
           ++ apply (Hbefore j); [lia|assumption].
      * intros name [<-|Hin]; [assumption|now apply IH].
Qed.

(** The detector's device is the lowest index whose name has the target
    name in it; when no device has, it is the host's default input device,
    and the call raises when the host has no default either. *)
Theorem find_airpods_device_first_match (h : host) :
  match find_airpods_device h with
  | Some k =>
    (exists name, device_names h !! k = Some name
                  /\ contains target_name name = true
                  /\ forall j name', (j < k)%nat ->
                       device_names h !! j = Some name' ->
                       contains target_name name' = false)
    \/ ((forall name, In name (device_names h) ->
                      contains target_name name = false)
        /\ default_input h = Some k)
  | None =>
    (forall name, In name (device_names h) -> contains target_name name = false)
    /\ default_input h = None
  end.
Proof.
  unfold find_airpods_device.
  pose proof (first_index_spec (contains target_name) (device_names h) 0) as H.
  destruct (first_index (contains target_name) 0 (device_names h)) as [k|].
  - rewrite Nat.sub_0_r in H. destruct H as (_ & (name & H1 & H2) & H3).
    left. exists name. now repeat split.
  - destruct (default_input h) as [k|]; [right|]; now split.
Qed.

End DeviceChoice.

(** ** voice_recognition.py *)

Section CaptureMore.
Import Py Machine VoiceRecognition.

(** A capture gives [None] in exactly four cases: nothing was recorded, the
    recording is empty, the file cannot be written, the recogniser raises.
    A recogniser without a result gives the empty string instead. *)
Theorem voice_input_fails_iff (c : capture) (d : VoiceActivation.disk) :
  fst (voice_input c d) = None
  <-> recording c = None \/ recording c = Some ""
      \/ VoiceActivation.writable d = false \/ recognition c = None.
Proof.
  rewrite voice_input_value. destruct (recording c) as [bytes|].
  - destruct (nonempty bytes) eqn:Hb; simpl.
    + apply nonempty_true in Hb.
      destruct (VoiceActivation.writable d).
      * destruct (recognition c) as [[|tr rest]|]; split;
          try discriminate; try tauto;
          intros [H|[H|[H|H]]]; try discriminate; congruence.
      * tauto.
    + apply nonempty_false in Hb. subst bytes. tauto.
  - tauto.
Qed.

Lemma voice_input_scratch_file_witness :
  let c := {| recording := Some "pcm"; stamp := "1743400000";
              recognition := None |} in
  VoiceActivation.files (snd (voice_input c Scenario.empty_disk))
    !! "recordings/input_1743400000.wav" = Some "pcm".
Proof.
  exact (voice_input_scratch_file
           {| recording := Some "pcm"; stamp := "1743400000";
              recognition := None |}
           Scenario.empty_disk "pcm" eq_refl ltac:(discriminate) eq_refl).
Defined.

Lemma lower_ascii_idem c : lower_ascii (lower_ascii c) = lower_ascii c.
Proof. destruct c as [[] [] [] [] [] [] [] []]; reflexivity. Qed.

Lemma lower_idem s : lower (lower s) = lower s.
Proof.
  induction s as [|c s IH]; simpl; [reflexivity|].
  now rewrite lower_ascii_idem, IH.
Qed.

Lemma lower_replace_from old skip s :
  lower s = s -> lower (replace_from old "" skip s) = replace_from old "" skip s.
Proof.
  revert skip. induction s as [|c s IH]; intros skip Hs; [reflexivity|].
  simpl in Hs. injection Hs as Hc Hs. simpl replace_from.
  destruct skip as [|skip]; [|now apply IH].
  destruct (startswith old (String c s)).
  - simpl. now apply IH.
  - simpl. rewrite Hc. f_equal. now apply IH.
Qed.

Lemma lower_lstrip s : lower s = s -> lower (lstrip s) = lstrip s.
Proof.
  induction s as [|c s IH]; intros Hs; [reflexivity|]. simpl.
  destruct (is_space c); [|assumption].
  simpl in Hs. injection Hs as _ Hs. now apply IH.
Qed.

Lemma lower_rstrip s : lower s = s -> lower (rstrip s) = rstrip s.
Proof.
  induction s as [|c s IH]; intros Hs; [reflexivity|].
  simpl in Hs. injection Hs as Hc Hs. specialize (IH Hs). simpl.
  destruct (rstrip s) as [|k kept].
  - destruct (is_space c); simpl; [reflexivity|now rewrite Hc].
  - simpl in *. rewrite Hc. f_equal. exact IH.
Qed.

(** An answer without the wake word is passed on as it was said. An answer
    with the wake word in it, in any case, comes out of [get_voice_input]
    in lower case throughout, not only with the wake word taken out. *)
Theorem clean_lower_cases (result : string) :
  (contains "register" (lower result) = false -> clean result = result)
  /\ (contains "register" (lower result) = true ->
      clean result = strip (replace "register" "" (lower result))
      /\ lower (clean result) = clean result).
Proof.
  unfold clean. split; intros ->; [reflexivity|]. split; [reflexivity|].
  unfold strip, replace. apply lower_rstrip, lower_lstrip, lower_replace_from.
  apply lower_idem.
Qed.

End CaptureMore.

Section RecordingMore.
Import Py Machine VoiceRecognition.

(** The dialog's device is the lowest index with "pulse" in its name, in
    any case; when no device has, it is the host's default input device,
    and [None] when the host has no default either. *)
Theorem get_airpods_device_index_first_match (h : VoiceActivation.host) :
  let names := VoiceActivation.device_names h in
  match get_airpods_device_index h with
  | Some k =>
    (exists name, names !! k = Some name
                  /\ contains "pulse" (lower name) = true
                  /\ forall j name', (j < k)%nat -> names !! j = Some name' ->
                       contains "pulse" (lower name') = false)
    \/ ((forall name, In name names -> contains "pulse" (lower name) = false)
        /\ VoiceActivation.default_input h = Some k)
  | None =>
    (forall name, In name names -> contains "pulse" (lower name) = false)
    /\ VoiceActivation.default_input h = None
  end.
Proof.
  unfold get_airpods_device_index.
  pose proof (first_index_spec (fun name => contains "pulse" (lower name))
                (VoiceActivation.device_names h) 0) as H.
  cbv zeta.
  destruct (VoiceActivation.first_index _ 0 (VoiceActivation.device_names h))
    as [k|].
  - rewrite Nat.sub_0_r in H. destruct H as (_ & (name & H1 & H2) & H3).
    left. exists name. now repeat split.
  - destruct (VoiceActivation.default_input h) as [k|]; [right|]; now split.
Qed.

Lemma record_chunks_spec reads n : forall i frames,
  match record_chunks reads i n frames with
  | Some out =>
    exists more,
      out = frames ++ more /\ (length more <= n)%nat
      /\ (forall j data, more !! j = Some data -> reads (i + j)%nat = Chunk data)
      /\ (length more = n \/ reads (i + length more)%nat = TimedOut
          \/ reads (i + length more)%nat = ReadIOError)
  | None =>
    exists k, (k < n)%nat /\ reads (i + k)%nat = ReadError
              /\ forall j, (j < k)%nat -> exists data, reads (i + j)%nat = Chunk data
  end.
Proof.
  induction n as [|n IH]; intros i frames; simpl.
  - exists []. rewrite app_nil_r. repeat split; auto. intros j data H.
    discriminate.
  - destruct (reads i) as [|data| |] eqn:Hi.
    + exists []. rewrite app_nil_r, Nat.add_0_r. simpl.
      repeat split; auto; [lia|]. intros j data H. discriminate.
    + specialize (IH (S i) (frames ++ [data])).
      destruct (record_chunks reads (S i) n (frames ++ [data])) as [out|].
      * destruct IH as (more & -> & Hlen & Hall & Hend).
        exists (data :: more). rewrite <- app_assoc. simpl.
        split; [reflexivity|]. split; [lia|]. split.
        -- intros [|j] data' Hj; simpl in Hj.
           ++ injection Hj as <-. now rewrite Nat.add_0_r.
           ++ replace (i + S j)%nat with (S i + j)%nat by lia. now apply Hall.
        -- replace (i + S (length more))%nat with (S i + length more)%nat by lia.
           destruct Hend as [H|[H|H]]; [left; lia|right; now left|right; now right].
      * destruct IH as (k & Hk & Hbad & Hbefore).
        exists (S k). split; [lia|]. split.
        -- replace (i + S k)%nat with (S i + k)%nat by lia. exact Hbad.
        -- intros [|j] Hj.
           ++ exists data. now rewrite Nat.add_0_r.
           ++ replace (i + S j)%nat with (S i + j)%nat by lia.
              apply Hbefore. lia.
    + exists []. rewrite app_nil_r, Nat.add_0_r. simpl.
      repeat split; auto; [lia|]. intros j data H. discriminate.
    + exists 0%nat. rewrite Nat.add_0_r. split; [lia|]. split; [assumption|].
      intros j Hj. lia.
Qed.

(** With a device and a stream that opens, a recording is the chunks read
    up to the first time-out or [IOError], 46 at most and one at least,
    joined in order. There is no recording when the first turn already
    times out or fails so, and none either when a read raises anything
    else: the chunks read before it are dropped. *)
Theorem record_audio_result (device_index : nat) (reads : nat -> chunk_read) :
  num_chunks = 46%nat
  /\ match record_audio (Some device_index) true reads with
     | Some recording =>
       exists frames,
         recording = String.concat "" frames
         /\ (0 < length frames <= num_chunks)%nat
         /\ (forall j data, frames !! j = Some data -> reads j = Chunk data)
         /\ (length frames = num_chunks \/ reads (length frames) = TimedOut
             \/ reads (length frames) = ReadIOError)
     | None =>
       reads 0%nat = TimedOut \/ reads 0%nat = ReadIOError
       \/ exists k, (k < num_chunks)%nat /\ reads k = ReadError
                    /\ forall j, (j < k)%nat -> exists data, reads j = Chunk data
     end.
Proof.
  split; [reflexivity|]. unfold record_audio.
  pose proof (record_chunks_spec reads num_chunks 0 []) as H.
  destruct (record_chunks reads 0 num_chunks []) as [[|f frames]|].
  - destruct H as (more & Hout & _ & _ & Hend). simpl in Hout. subst more.
    simpl in Hend. destruct Hend as [H|[H|H]]; [discriminate|now left|right; now left].
  - destruct H as (more & Hout & Hlen & Hall & Hend). simpl in Hout. subst more.
    exists (f :: frames). split; [reflexivity|]. split; [simpl in *; lia|].
    split; [exact Hall|exact Hend].
  - right. right. exact H.
Qed.

End RecordingMore.

Section PromptMore.
Import Py Machine VoiceRecognition System.

Lemma quiet_trace w w' : quiet w w' -> exists evs, trace w' = trace w ++ evs.
Proof. intros (_ & _ & _ & _ & evs & H & _). now exists evs. Qed.

Lemma events_since_app w w' evs :
  trace w' = trace w ++ evs -> events_since w w' = evs.
Proof. intros H. unfold events_since. rewrite H. apply drop_app_length. Qed.

Lemma prompt_loop_shows input_type finish :
  (forall v, v <> "" -> finish v = v) ->
  forall fuel w,
    match prompt_loop input_type finish show_input_confirmation fuel w with
    | Ok v w' =>
      exists evs, trace w' = trace w ++ evs
                  /\ In (ShowInputConfirmation input_type v) evs
    | Raised _ | Starved _ => True
    end.
Proof.
  intros Hfinish. induction fuel as [|fuel IH]; intros w; [exact I|].
  rewrite prompt_loop_step.
  pose proof (get_voice_input_cases w) as Hin.
  destruct (get_voice_input w) as [[v|] w1|w1|w1]; try exact I.
  - destruct Hin as (_ & Hq1 & _). apply quiet_trace in Hq1 as [e1 He1].
    destruct (nonempty v) eqn:Hv.
    + set (w1c := show_input_confirmation input_type v w1).
      assert (Hc : trace w1c
                   = trace w1 ++ [ShowInputConfirmation input_type v; Render]).
      { unfold w1c, show_input_confirmation, render, emit. simpl.
        now rewrite <- app_assoc. }
      pose proof (get_yes_no_response_spec w1c) as Hyn.
      destruct (get_yes_no_response w1c) as [[] w2|w2|w2]; try exact I.
      * destruct Hyn as (_ & Hq2). apply quiet_trace in Hq2 as [e2 He2].
        apply nonempty_true in Hv. rewrite (Hfinish v Hv).
        exists (e1 ++ [ShowInputConfirmation input_type v; Render] ++ e2).
        split.
        -- rewrite He2, Hc, He1. now rewrite <- !app_assoc.
        -- apply in_or_app. right. now left.
      * destruct Hyn as (_ & Hq2). apply quiet_trace in Hq2 as [e2 He2].
        specialize (IH w2).
        destruct (prompt_loop input_type finish show_input_confirmation fuel w2)
          as [v' w'|w'|w']; try exact I.
        destruct IH as (e3 & He3 & Hin3).
        exists (e1 ++ [ShowInputConfirmation input_type v; Render] ++ e2 ++ e3).
        split.
        -- rewrite He3, He2, Hc, He1. now rewrite <- !app_assoc.
        -- apply in_or_app. right. simpl. right. right. apply in_or_app. now right.
    + specialize (IH w1).
      destruct (prompt_loop input_type finish show_input_confirmation fuel w1)
        as [v' w'|w'|w']; try exact I.
      destruct IH as (e3 & He3 & Hin3). exists (e1 ++ e3). split.
      * rewrite He3, He1. now rewrite <- app_assoc.
      * apply in_or_app. now right.
  - destruct Hin as (_ & Hq1 & _). apply quiet_trace in Hq1 as [e1 He1].
    specialize (IH w1).
    destruct (prompt_loop input_type finish show_input_confirmation fuel w1)
      as [v' w'|w'|w']; try exact I.
    destruct IH as (e3 & He3 & Hin3). exists (e1 ++ e3). split.
    + rewrite He3, He1. now rewrite <- app_assoc.
    + apply in_or_app. now right.
Qed.

(** No prompt returns a value the user has not seen: what [prompt_for_name],
    [prompt_for_notes] and [prompt_for_category] return was put up for
    confirmation, under its field, during that very call. *)
Theorem prompts_return_what_was_shown (w : world) :
  match prompt_for_name show_input_confirmation w with
  | Ok name w' => In (ShowInputConfirmation "name" name) (events_since w w')
  | Raised _ | Starved _ => True
  end
  /\ match prompt_for_notes show_input_confirmation w with
     | Ok notes w' => In (ShowInputConfirmation "notes" notes) (events_since w w')
     | Raised _ | Starved _ => True
     end
  /\ match prompt_for_category show_input_confirmation w with
     | Ok category w' =>
       In (ShowInputConfirmation "category" category) (events_since w w')
     | Raised _ | Starved _ => True
     end.
Proof.
  assert (Hgen : forall input_type finish,
    (forall v, v <> "" -> finish v = v) ->
    match prompt_loop input_type finish show_input_confirmation
            (S (length (mic w))) w with
    | Ok v w' => In (ShowInputConfirmation input_type v) (events_since w w')
    | Raised _ | Starved _ => True
    end).
  { intros input_type finish Hfinish.
    pose proof (prompt_loop_shows input_type finish Hfinish
                  (S (length (mic w))) w) as H.
    destruct (prompt_loop input_type finish show_input_confirmation
                (S (length (mic w))) w) as [v w'|w'|w']; try exact I.
    destruct H as (evs & Hevs & Hin). now rewrite (events_since_app _ _ _ Hevs). }
  split; [|split].
  - apply (Hgen "name" (fun name => name)). reflexivity.
  - apply (Hgen "notes" (fun notes => notes)). reflexivity.
  - apply (Hgen "category"
             (fun category => if nonempty category then category else "Other")).
    intros v Hv. apply nonempty_true in Hv. now rewrite Hv.
Qed.

Lemma prompt_loop_unheard input_type finish callback fuel : forall w,
  (length (mic w) < fuel)%nat ->
  Forall unheard (said w) ->
  exists w', prompt_loop input_type finish callback fuel w = Starved w'.
Proof.
  induction fuel as [|fuel IH]; intros w Hfuel Hall; [lia|].
  rewrite prompt_loop_step.
  pose proof (get_voice_input_cases w) as Hin.
  destruct (get_voice_input w) as [r w1|w1|w1].
  - destruct Hin as (Hsaid & _ & Hlen). rewrite Hsaid in Hall.
    inversion Hall as [|? ? Hr Hrest]; subst.
    assert (Hnext : exists w', prompt_loop input_type finish callback fuel w1
                               = Starved w') by (apply IH; [lia|assumption]).
    destruct Hr as [Hr|Hr]; injection Hr as ->; [assumption|].
    simpl. assumption.
  - destruct Hin as (Hsaid & _). rewrite Hsaid in Hall.
    inversion Hall as [|? ? [Hr|Hr] _]; discriminate.
  - now exists w1.
Qed.

(** As long as every capture fails or comes back empty, no prompt returns
    and a registration neither ends nor writes anything: the loops have no
    bound on the number of tries. *)
Theorem unheard_dialog_never_returns (w : world) :
  Forall unheard (said w) ->
  (exists w', prompt_for_name show_input_confirmation w = Starved w')
  /\ (exists w', prompt_for_notes show_input_confirmation w = Starved w')
  /\ (exists w', prompt_for_category show_input_confirmation w = Starved w')
  /\ forall face_data, face_ok face_data ->
       exists w', register_new_face face_data w = Starved w'
                  /\ sql_db w' = sql_db w /\ face_db w' = face_db w.
Proof.
  intros Hall. split; [|split; [|split]].
  - apply prompt_loop_unheard; [lia|assumption].
  - apply prompt_loop_unheard; [lia|assumption].
  - apply prompt_loop_unheard; [lia|assumption].
  - intros face_data (Ht & Hb & He). unfold register_new_face.
    rewrite Ht, Hb, He. simpl. unfold try_except_finally, registration_body.
    unfold bind at 1. unfold lift at 1. unfold bind at 1. unfold lift at 1.
    unfold bind at 1.
    set (w0 := update_voice_feedback "Listening for name..." false
                 (update_status None (Some true) (Some false) w)).
    assert (Hs : silent w w0).
    { eapply silent_trans; [apply silent_update_status|].
      apply silent_update_voice_feedback. }
    assert (Hsaid : said w0 = said w) by now apply said_silent.
    pose proof (prompt_for_name_spec w0) as Hspec.
    destruct (prompt_loop_unheard "name" (fun name => name)
                show_input_confirmation (S (length (mic w0))) w0)
      as [w' Hw']; [lia|now rewrite Hsaid|].
    unfold prompt_for_name in *. rewrite Hw' in *.
    destruct Hspec as (_ & Hq). exists w'. split; [reflexivity|].
    destruct Hs as [Hq0 _].
    destruct (quiet_trans _ _ _ Hq0 Hq) as (H1 & H2 & _). now split.
Qed.

End PromptMore.

Lemma unheard_dialog_never_returns_witness :
  exists w',
    VoiceRecognition.prompt_for_name Machine.show_input_confirmation
      (Machine.set_mic [Scenario.nothing_understood; Scenario.not_transcribed]
         Scenario.fresh)
    = Machine.Starved w'.
Proof.
  apply (unheard_dialog_never_returns
           (Machine.set_mic [Scenario.nothing_understood; Scenario.not_transcribed]
              Scenario.fresh)).
  assert (Hsaid : VoiceRecognition.said
                    (Machine.set_mic
                       [Scenario.nothing_understood; Scenario.not_transcribed]
                       Scenario.fresh)
                  = [Machine.Heard (Some ""); Machine.Heard None])
    by (vm_compute; reflexivity).
  rewrite Hsaid. constructor; [right; reflexivity|].
  constructor; [left; reflexivity|constructor].
Defined.

(** ** main.py: the lock, exceptions and waiting *)

Section LockDiscipline.
Import Py Machine VoiceRecognition System.

Lemma calls_under_lock_app evs1 : forall held evs2,
  calls_under_lock held (evs1 ++ evs2)
  = calls_under_lock held evs1 ++ calls_under_lock (holds held evs1) evs2.
Proof.
  induction evs1 as [|ev evs1 IH]; intros held evs2; [reflexivity|].
  destruct ev; simpl; try apply IH; destruct held; simpl; now rewrite IH.
Qed.

Lemma holds_app evs1 : forall held evs2,
  holds held (evs1 ++ evs2) = holds (holds held evs1) evs2.
Proof.
  induction evs1 as [|ev evs1 IH]; intros held evs2; [reflexivity|].
  destruct ev; simpl; apply IH.
Qed.

Lemma outside_refl w : outside_lock w w.
Proof. exists []. now rewrite app_nil_r. Qed.

Lemma outside_trans w1 w2 w3 :
  outside_lock w1 w2 -> outside_lock w2 w3 -> outside_lock w1 w3.
Proof.
  intros (evs1 & Ht1 & Hc1 & Hh1) (evs2 & Ht2 & Hc2 & Hh2).
  exists (evs1 ++ evs2). split; [|split].
  - rewrite Ht2, Ht1. now rewrite app_assoc.
  - now rewrite calls_under_lock_app, Hc1, Hh1, Hc2.
  - now rewrite holds_app, Hh1.
Qed.

Lemma outside_same w w' : trace w' = trace w -> outside_lock w w'.
Proof. intros H. exists []. now rewrite app_nil_r. Qed.

Lemma outside_emit ev w :
  ev <> Acquire -> ev <> Release -> outside_lock w (emit ev w).
Proof.
  intros Ha Hr. exists [ev]. split; [reflexivity|].
  destruct ev; try congruence; now split.
Qed.

Lemma outside_locked body w :
  (forall w0, trace (body w0) = trace w0) -> outside_lock w (locked body w).
Proof.
  intros Hbody. exists [Acquire; Release]. split; [|now split].
  unfold locked, emit. simpl. rewrite Hbody. simpl. now rewrite <- app_assoc.
Qed.

Lemma outside_update_status a b c w : outside_lock w (update_status a b c w).
Proof.
  unfold update_status. eapply outside_trans; [|now apply outside_emit].
  now apply outside_same.
Qed.

Lemma outside_render w : outside_lock w (render w).
Proof. now apply outside_emit. Qed.

Lemma outside_show_notification text w : outside_lock w (show_notification text w).
Proof. now apply outside_emit. Qed.

Lemma outside_set_confirmation_mode b w :
  outside_lock w (set_confirmation_mode b w).
Proof. now apply outside_same. Qed.

Lemma outside_set_current_step n w : outside_lock w (set_current_step n w).
Proof. now apply outside_same. Qed.

Lemma outside_show_input_confirmation kind text w :
  outside_lock w (show_input_confirmation kind text w).
Proof.
  unfold show_input_confirmation.
  eapply outside_trans; [apply outside_set_confirmation_mode|].
  eapply outside_trans; [|apply outside_render]. now apply outside_emit.
Qed.

Lemma outside_update_voice_feedback text final w :
  outside_lock w (update_voice_feedback text final w).
Proof.
  unfold update_voice_feedback.
  eapply outside_trans; [|apply outside_render]. now apply outside_emit.
Qed.

Lemma outside_next_registration_step text w :
  outside_lock w (next_registration_step text w).
Proof.
  unfold next_registration_step.
  eapply outside_trans;
    [apply (outside_emit (NextRegistrationStep text)); discriminate|].
  eapply outside_trans; [|apply outside_render].
  destruct (Z.ltb 3 _).
  - eapply outside_trans; [apply outside_show_notification|].
    eapply outside_trans; [apply outside_set_current_step|].
    apply outside_update_status.
  - apply outside_set_current_step.
Qed.

Lemma outside_start_registration box w : outside_lock w (start_registration box w).
Proof.
  unfold start_registration.
  eapply outside_trans; [apply outside_set_current_step|].
  eapply outside_trans; [apply (outside_emit (StartRegistration box)); discriminate|].
  eapply outside_trans; [apply outside_update_status|apply outside_render].
Qed.

Lemma outside_store_voice_notes name notes category w :
  outside_lock w (store_voice_notes name notes category w).
Proof.
  unfold store_voice_notes. eapply outside_trans; [|now apply outside_emit].
  destruct (insert_raises w); now apply outside_same.
Qed.

Lemma outside_add_face encoding id w : outside_lock w (add_face encoding id w).
Proof.
  unfold add_face. eapply outside_trans; [|now apply outside_emit].
  now apply outside_same.
Qed.

Lemma outside_reset_flags w : outside_lock w (locked reset_flags w).
Proof. now apply outside_locked. Qed.

Lemma outside_cleanup w :
  outside_lock w (update_status None (Some false) None (locked reset_flags w)).
Proof.
  eapply outside_trans; [apply outside_reset_flags|apply outside_update_status].
Qed.

Lemma outside_resume_listening w : outside_lock w (resume_listening w).
Proof. now apply outside_locked. Qed.

Lemma outside_end_of_turn w : outside_lock w (end_of_turn w).
Proof.
  unfold end_of_turn. eapply outside_trans; [apply outside_render|].
  now apply outside_emit.
Qed.

Lemma outside_refresh_unknown_faces results w :
  outside_lock w (refresh_unknown_faces results w).
Proof.
  unfold refresh_unknown_faces.
  eapply outside_trans; [|now apply outside_emit].
  apply (outside_locked (set_unknown_faces (List.filter is_unknown results))).
  reflexivity.
Qed.

Lemma outside_check_registration_request w :
  outside_lock w (snd (check_registration_request w)).
Proof.
  exists [Acquire; Release]. split; [|now split].
  unfold check_registration_request. simpl.
  destruct (start_registration_requested w); simpl;
    destruct (list_truthy (unknown_faces w)); simpl;
    now rewrite <- app_assoc.
Qed.

Create HintDb outside.

#[local] Hint Resolve outside_refl outside_update_status outside_render
  outside_show_notification outside_set_confirmation_mode
  outside_show_input_confirmation outside_update_voice_feedback
  outside_next_registration_step outside_start_registration
  outside_store_voice_notes outside_add_face outside_reset_flags
  outside_cleanup outside_resume_listening outside_end_of_turn
  outside_refresh_unknown_faces : outside.

Lemma tidy_ret {A} (a : A) : tidy (ret a).
Proof. intros w. apply outside_refl. Qed.

Lemma tidy_lift f : (forall w, outside_lock w (f w)) -> tidy (lift f).
Proof. intros H w. apply H. Qed.

Lemma tidy_bind {A B} (c : M A) (k : A -> M B) :
  tidy c -> (forall a, tidy (k a)) -> tidy (bind c k).
Proof.
  intros Hc Hk w. unfold bind. specialize (Hc w).
  destruct (c w) as [a w1|w1|w1]; try assumption.
  specialize (Hk a w1).
  destruct (k a w1) as [b w2|w2|w2].
  - eapply outside_trans; eassumption.
  - eapply outside_trans; eassumption.
  - destruct Hk as [Hk Hm]. split; [eapply outside_trans; eassumption|assumption].
Qed.

Lemma tidy_get_voice_input : tidy get_voice_input.
Proof.
  intros w. unfold get_voice_input. destruct (mic w) as [|[c|] rest] eqn:Hm.
  - split; [apply outside_refl|assumption].
  - destruct (voice_input c (scratch w)) as [r d].
    eapply outside_trans; [|now apply outside_same].
    eapply outside_trans; [apply (outside_same w (set_mic rest w)); reflexivity|].
    now apply outside_emit.
  - eapply outside_trans; [apply (outside_same w (set_mic rest w)); reflexivity|].
    now apply outside_emit.
Qed.

Lemma tidy_get_yes_no_response_loop fuel : forall w,
  (length (mic w) < fuel)%nat ->
  match get_yes_no_response_loop fuel w with
  | Ok _ w' => outside_lock w w'
  | Raised w' => outside_lock w w'
  | Starved w' => outside_lock w w' /\ mic w' = []
  end.
Proof.
  induction fuel as [|fuel IH]; intros w Hfuel; [lia|].
  rewrite get_yes_no_response_loop_step.
  pose proof (tidy_get_voice_input w) as Hout.
  pose proof (get_voice_input_cases w) as Hin.
  destruct (get_voice_input w) as [[r|] w1|w1|w1]; try assumption.
  - destruct Hin as (_ & _ & Hlen).
    destruct (yes_in r); [assumption|]. destruct (no_in r); [assumption|].
    specialize (IH w1 ltac:(lia)).
    destruct (get_yes_no_response_loop fuel w1) as [b w2|w2|w2].
    + eapply outside_trans; eassumption.
    + eapply outside_trans; eassumption.
    + destruct IH. split; [eapply outside_trans; eassumption|assumption].
  - destruct Hin as (_ & _ & Hlen). specialize (IH w1 ltac:(lia)).
    destruct (get_yes_no_response_loop fuel w1) as [b w2|w2|w2].
    + eapply outside_trans; eassumption.
    + eapply outside_trans; eassumption.
    + destruct IH. split; [eapply outside_trans; eassumption|assumption].
Qed.

Lemma tidy_get_yes_no_response : tidy get_yes_no_response.
Proof. intros w. apply tidy_get_yes_no_response_loop. lia. Qed.

Lemma tidy_after w w1 {A} (r : result A) :
  outside_lock w w1 ->
  match r with
  | Ok _ w' => outside_lock w1 w'
  | Raised w' => outside_lock w1 w'
  | Starved w' => outside_lock w1 w' /\ mic w' = []
  end ->
  match r with
  | Ok _ w' => outside_lock w w'
  | Raised w' => outside_lock w w'
  | Starved w' => outside_lock w w' /\ mic w' = []
  end.
Proof.
  intros H1. destruct r as [a w'|w'|w'].
  - now apply outside_trans.
  - now apply outside_trans.
  - intros [H2 Hm]. split; [now apply (outside_trans _ _ _ H1)|assumption].
Qed.

Lemma tidy_prompt_loop input_type finish fuel : forall w,
  (length (mic w) < fuel)%nat ->
  match prompt_loop input_type finish show_input_confirmation fuel w with
  | Ok _ w' => outside_lock w w'
  | Raised w' => outside_lock w w'
  | Starved w' => outside_lock w w' /\ mic w' = []
  end.
Proof.
  induction fuel as [|fuel IH]; intros w Hfuel; [lia|].
  rewrite prompt_loop_step.
  pose proof (tidy_get_voice_input w) as Hout.
  pose proof (get_voice_input_cases w) as Hin.
  destruct (get_voice_input w) as [[v|] w1|w1|w1]; try assumption.
  - destruct Hin as (_ & _ & Hlen). destruct (nonempty v).
    + set (w1c := show_input_confirmation input_type v w1).
      assert (Hc : outside_lock w w1c).
      { eapply outside_trans; [exact Hout|].
        apply outside_show_input_confirmation. }
      assert (Hmic : mic w1c = mic w1) by reflexivity.
      pose proof (tidy_get_yes_no_response w1c) as Hyn.
      pose proof (get_yes_no_response_spec w1c) as Hsp.
      destruct (get_yes_no_response w1c) as [[] w2|w2|w2].
      * eapply outside_trans; eassumption.
      * assert (Hlen2 : (length (mic w2) < fuel)%nat).
        { destruct Hsp as (Hans & _). apply answered_shorter in Hans.
          rewrite !said_length, Hmic in Hans. lia. }
        apply (tidy_after w w2); [eapply outside_trans; eassumption|].
        now apply IH.
      * eapply outside_trans; eassumption.
      * destruct Hyn. split; [eapply outside_trans; eassumption|assumption].
    + apply (tidy_after w w1); [assumption|]. apply IH. lia.
  - destruct Hin as (_ & _ & Hlen).
    apply (tidy_after w w1); [assumption|]. apply IH. lia.
Qed.

Lemma tidy_prompt_for_name : tidy (prompt_for_name show_input_confirmation).
Proof. intros w. apply tidy_prompt_loop. lia. Qed.

Lemma tidy_prompt_for_notes : tidy (prompt_for_notes show_input_confirmation).
Proof. intros w. apply tidy_prompt_loop. lia. Qed.

Lemma tidy_prompt_for_category :
  tidy (prompt_for_category show_input_confirmation).
Proof. intros w. apply tidy_prompt_loop. lia. Qed.

Lemma tidy_get_id name : tidy (System.get_id name).
Proof. intros w. apply outside_refl. Qed.

Ltac tidy_steps :=
  repeat match goal with
  | |- tidy (bind _ _) => apply tidy_bind; [|intros ?]
  | |- tidy (lift _) => apply tidy_lift; intros ?; auto with outside
  | |- tidy (ret _) => apply tidy_ret
  | |- tidy (prompt_for_name _) => apply tidy_prompt_for_name
  | |- tidy (prompt_for_notes _) => apply tidy_prompt_for_notes
  | |- tidy (prompt_for_category _) => apply tidy_prompt_for_category
  | |- tidy (System.get_id _) => apply tidy_get_id
  | |- tidy (if ?b then _ else _) => destruct b
  end.

Lemma tidy_registration_body face_data : tidy (registration_body face_data).
Proof.
  unfold registration_body. tidy_steps.
  - now apply outside_emit.
Qed.

Lemma tidy_register_new_face face_data : tidy (register_new_face face_data).
Proof.
  unfold register_new_face.
  destruct (negb (dict_truthy face_data) || negb (has_key "box" face_data)
            || negb (has_key "encoding" face_data)); [apply tidy_ret|].
  intros w. unfold try_except_finally.
  pose proof (tidy_registration_body face_data w) as H.
  destruct (registration_body face_data w) as [[] w1|w1|w1].
  - eapply outside_trans; [exact H|apply outside_cleanup].
  - eapply outside_trans; [exact H|].
    eapply outside_trans; [apply outside_show_notification|apply outside_cleanup].
  - exact H.
Qed.

Lemma tidy_start_and_register f : tidy (start_and_register f).
Proof.
  unfold start_and_register. destruct (f !! "box") as [box|].
  - tidy_steps. apply tidy_register_new_face.
  - intros w. apply outside_refl.
Qed.

Lemma tidy_serve_registration_request : tidy serve_registration_request.
Proof.
  intros w. unfold serve_registration_request.
  pose proof (outside_check_registration_request w) as Hc.
  destruct (check_registration_request w) as [[f|] w1]; simpl in Hc.
  - destruct (dict_truthy f).
    + apply (tidy_after w w1); [assumption|].
      revert w1 Hc. 
      assert (Ht : tidy (exec start_and_register f; call resume_listening;
                         lift end_of_turn)).
      { tidy_steps. apply tidy_start_and_register. }
      intros w1 _. apply Ht.
    + eapply outside_trans; [exact Hc|apply outside_end_of_turn].
  - eapply outside_trans; [exact Hc|apply outside_end_of_turn].
Qed.

Lemma tidy_main_loop_turn recognition quit : tidy (main_loop_turn recognition quit).
Proof.
  unfold main_loop_turn. destruct recognition as [results|].
  - tidy_steps. apply tidy_serve_registration_request.
  - tidy_steps. now apply outside_emit.
Qed.

(** The main thread makes no call at all while it holds the lock: in a
    whole turn of its loop, with or without a registration in it, every
    call to the display, the microphone and the stores falls outside its
    lock blocks, and the lock is free when the turn ends, however it
    ends. *)
Theorem main_thread_calls_nothing_under_lock (recognition : option (list face))
    (quit : bool) (w : world) :
  let w' := world_of (main_loop_turn recognition quit w) in
  calls_under_lock false (events_since w w') = []
  /\ holds false (events_since w w') = false.
Proof.
  pose proof (tidy_main_loop_turn recognition quit w) as H. cbv zeta.
  assert (Hout : outside_lock w (world_of (main_loop_turn recognition quit w))).
  { destruct (main_loop_turn recognition quit w) as [b w'|w'|w']; simpl;
      [assumption|assumption|apply H]. }
  destruct Hout as (evs & Ht & Hc & Hh).
  rewrite (events_since_app _ _ _ Ht). now split.
Qed.

(** [register_new_face] never lets an exception out, and with usable face
    data it ends with the system out of registration mode, listening
    again, and the display's voice indicator off, whether the dialog
    completed or raised. It is found still waiting only when the
    microphone input has run out. *)
Theorem register_new_face_always_returns (face_data : face) (w : world) :
  match register_new_face face_data w with
  | Ok _ w' =>
    face_ok face_data ->
    registration_mode w' = false /\ listening_for_wake_word w' = true
    /\ voice_active (ar_display w') = false
  | Raised _ => False
  | Starved w' => mic w' = []
  end.
Proof.
  pose proof (tidy_register_new_face face_data w) as Htidy.
  unfold register_new_face in *.
  destruct (negb (dict_truthy face_data) || negb (has_key "box" face_data)
            || negb (has_key "encoding" face_data)) eqn:Hbad.
  - simpl. intros (Ht & Hb & He). rewrite Ht, Hb, He in Hbad. discriminate.
  - unfold try_except_finally in *.
    destruct (registration_body face_data w) as [[] w1|w1|w1].
    + intros _. now repeat split.
    + intros _. now repeat split.
    + apply Htidy.
Qed.

End LockDiscipline.

(** ** main.py: the listener and the main loop *)

Section CoordinationMore.
Import Py Machine VoiceRecognition System.

(** While the system is in registration mode, is not listening, or has no
    unknown face in view, a turn of the listener does not call the
    detector: the detector object, the scratch directory, the microphone
    input, the flags and the stores are as before, and the display is told
    that nobody listens. *)
Theorem listener_skips_detector (e : VoiceActivation.env)
    (reads : list (option VoiceActivation.frame)) (w : world) :
  listening_for_wake_word w && negb (registration_mode w)
    && list_truthy (unknown_faces w) = false ->
  let w' := voice_listener_iteration e reads w in
  ~ In ListenForWakeWord (events_since w w')
  /\ voice_activation w' = voice_activation w /\ scratch w' = scratch w
  /\ mic w' = mic w
  /\ listening_for_wake_word w' = listening_for_wake_word w
  /\ registration_mode w' = registration_mode w
  /\ start_registration_requested w' = start_registration_requested w
  /\ sql_db w' = sql_db w /\ face_db w' = face_db w
  /\ wake_word_listening (ar_display w') = false.
Proof.
  intros Hidle. unfold voice_listener_iteration. simpl. rewrite Hidle. simpl.
  destruct (wake_word_listening (ar_display w)) eqn:Hd; simpl;
    rewrite ?Hidle; simpl.
  - repeat split; try reflexivity.
    unfold events_since. simpl. rewrite <- !app_assoc, drop_app_length.
    simpl. intros [H|[H|[H|[H|[]]]]]; discriminate.
  - repeat split; try reflexivity; try assumption.
    unfold events_since. simpl. rewrite <- !app_assoc, drop_app_length.
    simpl. intros [H|[H|[H|[]]]]; discriminate.
Qed.

Lemma listener_skips_detector_witness :
  let w' := voice_listener_iteration (Scenario.hears "register")
              [Some Scenario.speech_frame; Some Scenario.silence_frame]
              Scenario.requested in
  ~ In ListenForWakeWord (events_since Scenario.requested w')
  /\ registration_mode w' = true.
Proof.
  pose proof (listener_skips_detector (Scenario.hears "register")
                [Some Scenario.speech_frame; Some Scenario.silence_frame]
                Scenario.requested eq_refl) as H.
  cbv zeta in *. split; [apply H|].
  destruct H as (_ & _ & _ & _ & _ & -> & _). reflexivity.
Defined.

(** When the system listens, is not in registration mode and has an
    unknown face in view, a turn of the listener calls the detector once
    and keeps what it leaves behind. A detection raises the request with
    registration mode on and listening off; without one the three flags
    stay as they were. The second test of the flags after a detection
    never fails: nothing can change them while the listener holds the
    lock. *)
Theorem listener_requests_iff_detected (e : VoiceActivation.env)
    (reads : list (option VoiceActivation.frame)) (w : world) :
  listening_for_wake_word w = true ->
  registration_mode w = false ->
  unknown_faces w <> [] ->
  let heard := VoiceActivation.listen_for_wake_word e reads
                 (voice_activation w) (scratch w) in
  let w' := voice_listener_iteration e reads w in
  voice_activation w' = snd (fst heard) /\ scratch w' = snd heard
  /\ (if fst (fst heard)
      then registration_mode w' = true /\ listening_for_wake_word w' = false
           /\ start_registration_requested w' = true
      else registration_mode w' = false /\ listening_for_wake_word w' = true
           /\ start_registration_requested w' = start_registration_requested w)
  /\ sql_db w' = sql_db w /\ face_db w' = face_db w /\ mic w' = mic w
  /\ unknown_faces w' = unknown_faces w.
Proof.
  intros Hl Hr Hu. cbv zeta. unfold voice_listener_iteration. simpl.
  assert (Hfaces : list_truthy (unknown_faces w) = true).
  { destruct (unknown_faces w); [congruence|reflexivity]. }
  rewrite Hl, Hr, Hfaces. simpl.
  destruct (wake_word_listening (ar_display w)); simpl;
    rewrite ?Hl, ?Hr, ?Hfaces; simpl;
    destruct (VoiceActivation.listen_for_wake_word e reads (voice_activation w)
                (scratch w)) as [[[] va] d]; simpl;
    rewrite ?Hr, ?Hfaces; simpl; repeat split; assumption.
Qed.

Lemma listener_requests_iff_detected_witness :
  let w' := voice_listener_iteration (Scenario.hears "Please REGISTER me")
              [Some Scenario.speech_frame; Some Scenario.silence_frame]
              Scenario.stranger_in_view in
  registration_mode w' = true /\ listening_for_wake_word w' = false
  /\ start_registration_requested w' = true.
Proof.
  pose proof (listener_requests_iff_detected
                (Scenario.hears "Please REGISTER me")
                [Some Scenario.speech_frame; Some Scenario.silence_frame]
                Scenario.stranger_in_view eq_refl eq_refl
                ltac:(discriminate)) as H.
  cbv zeta in H. destruct H as (_ & _ & H & _).
  assert (Hd : fst (fst (VoiceActivation.listen_for_wake_word
                           (Scenario.hears "Please REGISTER me")
                           [Some Scenario.speech_frame; Some Scenario.silence_frame]
                           (voice_activation Scenario.stranger_in_view)
                           (scratch Scenario.stranger_in_view))) = true)
    by (vm_compute; reflexivity).
  rewrite Hd in H. exact H.
Defined.

Lemma filter_head {A} (p : A -> bool) (l : list A) x rest :
  List.filter p l = x :: rest ->
  exists before after,
    l = before ++ x :: after /\ p x = true
    /\ Forall (fun y => p y = false) before.
Proof.
  induction l as [|y l IH]; simpl; [discriminate|].
  destruct (p y) eqn:Hy.
  - intros H. injection H as -> _. exists [], l. repeat split; auto.
  - intros H. destruct (IH H) as (before & after & -> & Hx & Hall).
    exists (y :: before), after. repeat split; auto.
Qed.

(** The face the main loop hands to the registration is the first face of
    the latest recognition results that is unknown, and taking it uses the
    request up. Without a request no face is taken. *)
Theorem registered_face_is_first_unknown (recognition_results : list face)
    (w w' : world) (f : face) :
  check_registration_request (refresh_unknown_faces recognition_results w)
  = (Some f, w') ->
  start_registration_requested w = true
  /\ start_registration_requested w' = false
  /\ exists before after,
       recognition_results = before ++ f :: after
       /\ is_unknown f = true
       /\ Forall (fun g => is_unknown g = false) before.
Proof.
  unfold check_registration_request, refresh_unknown_faces. simpl.
  destruct (start_registration_requested w) eqn:Hreq; simpl.
  - destruct (List.filter is_unknown recognition_results) as [|g rest] eqn:Hf;
      simpl; intros H; inversion H; subst.
    split; [reflexivity|]. split; [reflexivity|].
    exact (filter_head _ _ _ _ Hf).
  - destruct (list_truthy (List.filter is_unknown recognition_results));
      simpl; intros H; inversion H.
Qed.

Lemma registered_face_is_first_unknown_witness :
  exists before after,
    [Scenario.alice; Scenario.stranger] = before ++ Scenario.stranger :: after
    /\ is_unknown Scenario.stranger = true
    /\ Forall (fun g => is_unknown g = false) before.
Proof.
  apply (registered_face_is_first_unknown [Scenario.alice; Scenario.stranger]
           Scenario.requested
           (snd (check_registration_request
                   (refresh_unknown_faces [Scenario.alice; Scenario.stranger]
                      Scenario.requested)))
           Scenario.stranger).
  vm_compute. reflexivity.
Defined.

(** A face with a box and no encoding starts the registration display and
    nothing else: no dialog, nothing stored, and the early return of
    [register_new_face] skips its [finally] block, so registration mode
    stays as the request left it while the main loop switches listening
    back on. *)
Theorem face_without_encoding_keeps_mode (w : world) (f : face)
    (rest : list face) (box : value) :
  start_registration_requested w = true ->
  unknown_faces w = f :: rest ->
  f !! "box" = Some box ->
  f !! "encoding" = None ->
  exists w',
    serve_registration_request w = Ok tt w'
    /\ registration_mode w' = registration_mode w
    /\ listening_for_wake_word w' = true
    /\ start_registration_requested w' = false
    /\ sql_db w' = sql_db w /\ face_db w' = face_db w /\ mic w' = mic w
    /\ events_since w w'
       = [Acquire; Release; StartRegistration box;
          UpdateStatus (Some true) (Some true) None; Render;
          UpdateStatus None (Some true) (Some false);
          Acquire; Release; Render; Sleep].
Proof.
  intros Hreq Hfaces Hbox Henc.
  assert (Htruthy : dict_truthy f = true).
  { unfold dict_truthy.
    destruct (Nat.eqb_spec (size f) 0) as [Hz|]; [|reflexivity].
    exfalso. apply (map_size_ne_0_lookup_2 f "box"); [now rewrite Hbox|exact Hz]. }
  unfold serve_registration_request, check_registration_request. simpl.
  rewrite Hreq, Hfaces. simpl. rewrite Htruthy.
  unfold bind, start_and_register. rewrite Hbox.
  unfold bind, lift, register_new_face, has_key. rewrite Htruthy, Hbox, Henc.
  simpl. eexists. split; [reflexivity|]. repeat split.
  unfold events_since. simpl. rewrite <- !app_assoc. simpl.
  now rewrite drop_app_length.
Qed.

Lemma face_without_encoding_keeps_mode_witness :
  exists w',
    serve_registration_request
      (set_unknown_faces [Scenario.boxed_only] Scenario.requested) = Ok tt w'
    /\ registration_mode w' = true
    /\ listening_for_wake_word w' = true.
Proof.
  destruct (face_without_encoding_keeps_mode
              (set_unknown_faces [Scenario.boxed_only] Scenario.requested)
              Scenario.boxed_only [] (VArray [10; 20; 110; 140])
              eq_refl eq_refl eq_refl eq_refl)
    as (w' & Hrun & Hmode & Hlisten & _).
  exists w'. split; [exact Hrun|]. split; [exact Hmode|exact Hlisten].
Defined.


(** The two lists of the face store stay paired through a registration,
    however it ends: they have the same length afterwards if they had
    before, and a store that changed was saved as it is. *)
Theorem register_new_face_keeps_lists_paired (face_data : face) (w : world) :
  length (FaceDatabase.encodings (face_db w))
  = length (FaceDatabase.names (face_db w)) ->
  let db' := face_db (world_of (register_new_face face_data w)) in
  length (FaceDatabase.encodings db') = length (FaceDatabase.names db')
  /\ (db' = face_db w
      \/ FaceDatabase.pickled db'
         = (FaceDatabase.encodings db', FaceDatabase.names db')).
Proof.
  intros Hpaired. cbv zeta.
  destruct (negb (dict_truthy face_data) || negb (has_key "box" face_data)
            || negb (has_key "encoding" face_data)) eqn:Hbad.
  - unfold register_new_face. rewrite Hbad. simpl. split; [assumption|now left].
  - assert (Hok : face_ok face_data).
    { unfold face_ok. destruct (dict_truthy face_data), (has_key "box" face_data),
        (has_key "encoding" face_data); simpl in Hbad; try discriminate.
      now repeat split. }
    destruct (register_new_face_outcome face_data w Hok)
      as [(n & o & c & _ & _ & Hf)|(_ & _ & Hf & _)].
    + rewrite Hf. simpl. rewrite !length_app. simpl. split; [lia|now right].
    + rewrite Hf. split; [assumption|now left].
Qed.

End CoordinationMore.

(** ** main.py: the sync thread *)

Section SyncMore.
Import Py Machine System.

Lemma apply_entries_ids data : forall db,
  map Database.row_id (Database.rows (fst (apply_entries data db)))
  = map Database.row_id (Database.rows db)
  /\ Database.seq (fst (apply_entries data db)) = Database.seq db
  /\ (Database.wf db -> Database.wf (fst (apply_entries data db))).
Proof.
  induction data as [|en data IH]; intros db; simpl; [tauto|].
  destruct (entry_id en) as [id|]; [|simpl; tauto].
  destruct (entry_name en) as [name|]; [|simpl; tauto].
  destruct (entry_notes en) as [notes|]; [|simpl; tauto].
  destruct (entry_category en) as [category|]; [|simpl; tauto].
  destruct (IH (fst (Database.edit id name notes category db)))
    as (Hids & Hseq & Hwf).
  simpl in *. split; [|split].
  - rewrite Hids, map_map. apply map_ext. intros r. apply update_row_id.
  - exact Hseq.
  - intros H. apply Hwf. exact (wf_edit id name notes category db H).
Qed.

(** Whatever the server answers, a turn of the sync thread leaves the
    table with the same rows under the same ids, in the same order: it can
    rewrite the name, notes and category of people the table has and can
    neither add nor remove one. It then sleeps 10 or 60 seconds. *)
Theorem sync_turn_keeps_ids (r : response) (db : Database.t) :
  let '(db', slept) := sync_turn r db in
  map Database.row_id (Database.rows db') = map Database.row_id (Database.rows db)
  /\ Database.seq db' = Database.seq db
  /\ (Database.wf db -> Database.wf db')
  /\ (slept = 10 \/ slept = 60).
Proof.
  unfold sync_turn. destruct r as [|status_code [data|]]; [tauto| |].
  - destruct (Z.eqb status_code 200); [|tauto].
    destruct (list_truthy data && Nat.ltb 0 (length data)); [|tauto].
    pose proof (apply_entries_ids data db) as (H1 & H2 & H3).
    destruct (apply_entries data db) as [db1 raised]. simpl in *.
    split; [assumption|]. split; [assumption|]. split; [assumption|].
    destruct raised; tauto.
  - destruct (Z.eqb status_code 200); tauto.
Qed.

Lemma apply_entries_complete data : forall db,
  Forall (fun en => is_Some (as_update en)) data ->
  apply_entries data db
  = (Database.execute_all (omap as_update data) db, false).
Proof.
  induction data as [|en data IH]; intros db Hall; [reflexivity|].
  inversion Hall as [|? ? Hen Hrest]; subst. simpl.
  unfold as_update in *.
  destruct (entry_id en) as [id|]; [|now destruct Hen].
  destruct (entry_name en) as [name|]; [|now destruct Hen].
  destruct (entry_notes en) as [notes|]; [|now destruct Hen].
  destruct (entry_category en) as [category|]; [|now destruct Hen].
  simpl. now rewrite IH.
Qed.

Lemma apply_entries_malformed good : forall bad rest db,
  Forall (fun en => is_Some (as_update en)) good ->
  as_update bad = None ->
  apply_entries (good ++ bad :: rest) db
  = (Database.execute_all (omap as_update good) db, true).
Proof.
  induction good as [|en good IH]; intros bad rest db Hall Hbad.
  - simpl. unfold as_update in Hbad.
    destruct (entry_id bad); [|reflexivity].
    destruct (entry_name bad); [|reflexivity].
    destruct (entry_notes bad); [|reflexivity].
    destruct (entry_category bad); [discriminate|reflexivity].
  - inversion Hall as [|? ? Hen Hrest]; subst. simpl.
    unfold as_update in Hen |- *.
    destruct (entry_id en) as [id|]; [|now destruct Hen].
    destruct (entry_name en) as [name|]; [|now destruct Hen].
    destruct (entry_notes en) as [notes|]; [|now destruct Hen].
    destruct (entry_category en) as [category|]; [|now destruct Hen].
    simpl. now rewrite (IH bad rest _ Hrest Hbad).
Qed.

(** An answer with an entry that lacks a key is applied up to that entry
    and no further: the edits before it are kept, the entries after it are
    dropped, and the thread tries again after 10 seconds instead of 60. An
    answer whose entries are all complete is applied in full. *)
Theorem sync_turn_stops_at_malformed_entry (good rest : list entry)
    (bad : entry) (db : Database.t) :
  Forall (fun en => is_Some (as_update en)) good ->
  as_update bad = None ->
  sync_turn (Response 200 (Some (good ++ bad :: rest))) db
  = (Database.execute_all (omap as_update good) db, 10)
  /\ sync_turn (Response 200 (Some good)) db
     = (Database.execute_all (omap as_update good) db, 60).
Proof.
  intros Hgood Hbad. unfold sync_turn. simpl. split.
  - assert (Hlen : list_truthy (good ++ bad :: rest)
                   && Nat.ltb 0 (length (good ++ bad :: rest)) = true).
    { unfold list_truthy. rewrite length_app. simpl.
      replace (length good + S (length rest))%nat
        with (S (length good + length rest)) by lia. reflexivity. }
    rewrite Hlen. now rewrite (apply_entries_malformed good bad rest db Hgood Hbad).
  - destruct good as [|en good]; [reflexivity|].
    change (list_truthy (en :: good) && Nat.ltb 0 (length (en :: good)))
      with true.
    now rewrite (apply_entries_complete (en :: good) db Hgood).
Qed.

End SyncMore.

Lemma sync_turn_stops_at_malformed_entry_witness :
  System.sync_turn
    (System.Response 200
       (Some [Scenario.rename_alice; Scenario.without_notes;
              Scenario.rename_alice]))
    Scenario.one_row
  = (fst (Database.edit 1 "Alice B" "tall" "friend" Scenario.one_row), 10).
Proof.
  refine (proj1 (sync_turn_stops_at_malformed_entry [Scenario.rename_alice]
                   [Scenario.rename_alice] Scenario.without_notes
                   Scenario.one_row _ _)).
  - constructor; [|constructor]. exists (Database.Update 1 "Alice B" "tall" "friend").
    reflexivity.
  - reflexivity.
Defined.

(** ** main.py: what a turn of the main loop does and does not start *)

Section RegistrationMore.
Import Py Machine VoiceRecognition System.

(** Without a request from the listener, a turn of the main loop starts no
    dialog: it refreshes the list of unknown faces, leaves the three flags,
    the stores and the microphone input alone, and goes on unless the
    display asked to quit. *)
Theorem no_request_no_dialog (recognition_results : list face) (quit : bool)
    (w : world) :
  start_registration_requested w = false ->
  exists w',
    main_loop_turn (Some recognition_results) quit w = Ok (negb quit) w'
    /\ unknown_faces w' = List.filter is_unknown recognition_results
    /\ registration_mode w' = registration_mode w
    /\ listening_for_wake_word w' = listening_for_wake_word w
    /\ start_registration_requested w' = false
    /\ sql_db w' = sql_db w /\ face_db w' = face_db w /\ mic w' = mic w
    /\ ~ In GetVoiceInput (events_since w w').
Proof.
  intros Hreq.
  unfold main_loop_turn, bind, lift, ret, serve_registration_request,
    check_registration_request, refresh_unknown_faces.
  destruct quit; simpl; rewrite ?Hreq; simpl.
  - eexists. split; [reflexivity|]. repeat split; try assumption.
    unfold events_since. simpl. rewrite <- !app_assoc, drop_app_length. simpl.
    intros [H|[H|[H|[]]]]; discriminate.
  - eexists. split; [reflexivity|]. repeat split; try assumption.
    unfold events_since. simpl. rewrite <- !app_assoc, drop_app_length. simpl.
    intros [H|[H|[H|[H|[H|[H|[H|[]]]]]]]]; discriminate.
Qed.

Lemma no_request_no_dialog_witness :
  exists w',
    main_loop_turn (Some [Scenario.stranger]) false
      (set_mic Scenario.alice_tall_friend Scenario.fresh) = Ok true w'
    /\ mic w' = Scenario.alice_tall_friend.
Proof.
  destruct (no_request_no_dialog [Scenario.stranger] false
              (set_mic Scenario.alice_tall_friend Scenario.fresh) eq_refl)
    as (w' & Hrun & _ & _ & _ & _ & _ & _ & Hmic & _).
  exists w'. split; [exact Hrun|exact Hmic].
Defined.




Lemma register_new_face_keeps_lists_paired_witness :
  let db' := face_db (world_of (register_new_face Scenario.stranger
                                  (set_mic Scenario.alice_tall_friend
                                     Scenario.fresh))) in
  length (FaceDatabase.encodings db') = length (FaceDatabase.names db').
Proof.
  exact (proj1 (register_new_face_keeps_lists_paired Scenario.stranger
                  (set_mic Scenario.alice_tall_friend Scenario.fresh) eq_refl)).
Defined.

End RegistrationMore.
